(** * KAL / lr4: ant-colony TSP solver over a Graphviz-parsed graph

    A shallow embedding of [lr4/code/graph.cpp] and
    [lr4/code/ant_colony_solver.cpp].

    - [double] is IEEE binary64, embedded as Rocq's primitive [float].
    - [std::string] is [string]; [std::vector] is [list], read with stdpp's
      lookup and written with stdpp's insert.
    - [size_t] counters are [nat]; the [int] entries of a tour are vertex
      indices and are [nat] as well; [unsigned int] seeds are [Z] reduced
      modulo [2^32] where the source lets them wrap.
    - a C++ exception is the [Throw] case of [outcome].
    - [std::pow], [std::mt19937] and the two [std::uniform_*_distribution]s
      are library code: the solver is parameterised by them. *)

From Stdlib Require Import ZArith List Ascii String Floats Lia Bool Permutation OrderedTypeEx.
From stdpp Require Import base list strings gmap sorting.

Set Warnings "-inexact-float".
Local Open Scope float_scope.

(** ** Exceptions *)

Inductive outcome (A : Type) : Type :=
| Ok (a : A)
| Throw (what : string).
Arguments Ok {A} a.
Arguments Throw {A} what.

Definition obind {A B : Type} (x : outcome A) (f : A -> outcome B) : outcome B :=
  match x with
  | Ok a => f a
  | Throw w => Throw w
  end.

(** ** Doubles *)

Module Dbl.

Definition kInfinity : float := infinity.

(** [std::isinf], [std::isfinite], [std::fabs]. *)
Definition isinf (x : float) : bool := is_infinity x.
Definition isfinite (x : float) : bool := is_finite x.
Definition fabs (x : float) : float := abs x.

End Dbl.

(** ** Text helpers of [graph.cpp] *)

Module Text.

(** [std::isspace] in the "C" locale: space, \t, \n, \v, \f, \r. *)
Definition isspace (c : ascii) : bool :=
  let n := nat_of_ascii c in
  Nat.eqb n 32 || (Nat.leb 9 n && Nat.leb n 13).

Definition isdigit (c : ascii) : bool :=
  let n := nat_of_ascii c in
  Nat.leb 48 n && Nat.leb n 57.

Definition char_at (text : string) (i : nat) : ascii :=
  match String.get i text with
  | Some c => c
  | None => Ascii.zero
  end.

(** [while (start < text.size() && isspace(text[start])) ++start;] *)
Fixpoint trim_start (text : string) (start fuel : nat) : nat :=
  match fuel with
  | O => start
  | S fuel' =>
      if Nat.ltb start (String.length text) && isspace (char_at text start)
      then trim_start text (S start) fuel'
      else start
  end.

(** [while (end > start && isspace(text[end - 1])) --end;] *)
Fixpoint trim_end (text : string) (start end_ : nat) : nat :=
  match end_ with
  | O => O
  | S e =>
      if Nat.ltb start (S e) && isspace (char_at text e)
      then trim_end text start e
      else S e
  end.

Definition Trim (text : string) : string :=
  let start := trim_start text 0 (String.length text) in
  let end_ := trim_end text start (String.length text) in
  String.substring start (end_ - start) text.

Definition quote : ascii := Ascii.ascii_of_nat 34.
Definition apostrophe : ascii := Ascii.ascii_of_nat 39.

Definition StripQuotes (text : string) : string :=
  let n := String.length text in
  let front := char_at text 0 in
  let back := char_at text (n - 1) in
  if Nat.leb 2 n
     && ((Ascii.eqb front quote && Ascii.eqb back quote)
         || (Ascii.eqb front apostrophe && Ascii.eqb back apostrophe))
  then String.substring 1 (n - 2) text
  else text.

(** [text.find(needle)]: [None] is [std::string::npos]. *)
Definition find (needle text : string) : option nat := String.index 0 needle text.

(** [text.substr(pos)] for [pos <= text.size()]. *)
Definition substr_from (pos : nat) (text : string) : string :=
  String.substring pos (String.length text - pos) text.

(** Successive [std::getline] calls on a stream holding [input]: the text
    is cut at every newline; a final line without newline is still read,
    and nothing is read after a final newline. *)
Fixpoint getlines_aux (input : string) (line : string) (seen : bool) : list string :=
  match input with
  | EmptyString => if seen then [line] else []
  | String c rest =>
      if Ascii.eqb c (Ascii.ascii_of_nat 10)
      then line :: getlines_aux rest EmptyString false
      else getlines_aux rest (line +:+ String c EmptyString) true
  end.

Definition getlines (input : string) : list string := getlines_aux input EmptyString false.

(** [s.c_str()] read as a C string: up to the first NUL. *)
Fixpoint c_str (s : string) : string :=
  match s with
  | EmptyString => EmptyString
  | String c rest => if Ascii.eqb c Ascii.zero then EmptyString else String c (c_str rest)
  end.

End Text.

(** ** The two regular expressions of [ParseWeight]

    [std::regex] defaults to the ECMAScript grammar, whose matcher is a
    backtracking one: alternatives are tried left to right, quantifiers are
    greedy.  [ends r s] lists, in that order of preference, what is left of
    [s] after each way [r] can match a prefix of it; the first entry is the
    match the library reports. *)

Module Regex.

Inductive regex : Type :=
| Lit (l : string)
| Class (p : ascii -> bool)
| Cat (r1 r2 : regex)
| Alt (r1 r2 : regex)
| Opt (r : regex)
| Star (p : ascii -> bool)
| Plus (p : ascii -> bool).

Fixpoint strip_prefix (l s : string) : option string :=
  match l, s with
  | EmptyString, _ => Some s
  | String a l', String b s' => if Ascii.eqb a b then strip_prefix l' s' else None
  | String _ _, EmptyString => None
  end.

Fixpoint star_ends (p : ascii -> bool) (s : string) : list string :=
  match s with
  | EmptyString => [EmptyString]
  | String c s' => if p c then star_ends p s' ++ [s] else [s]
  end.

Fixpoint ends (r : regex) (s : string) : list string :=
  match r with
  | Lit l => match strip_prefix l s with Some s' => [s'] | None => [] end
  | Class p => match s with
               | String c s' => if p c then [s'] else []
               | EmptyString => []
               end
  | Cat r1 r2 => flat_map (ends r2) (ends r1 s)
  | Alt r1 r2 => ends r1 s ++ ends r2 s
  | Opt r1 => ends r1 s ++ [s]
  | Star p => star_ends p s
  | Plus p => match s with
              | String c s' => if p c then star_ends p s' else []
              | EmptyString => []
              end
  end.

Definition is_sign (c : ascii) : bool :=
  Ascii.eqb c (Ascii.ascii_of_nat 45) || Ascii.eqb c (Ascii.ascii_of_nat 43).
Definition is_exp (c : ascii) : bool :=
  Ascii.eqb c (Ascii.ascii_of_nat 101) || Ascii.eqb c (Ascii.ascii_of_nat 69).

(** [[-+]?([0-9]*\.[0-9]+|[0-9]+)([eE][-+]?[0-9]+)?] *)
Definition kNumberOnly : regex :=
  Cat (Opt (Class is_sign))
      (Cat (Alt (Cat (Star Text.isdigit) (Cat (Lit ".") (Plus Text.isdigit)))
                (Plus Text.isdigit))
           (Opt (Cat (Class is_exp) (Cat (Opt (Class is_sign)) (Plus Text.isdigit))))).

(** [(weight|label|w)\s*=\s*], the part of [kWeightRegex] before group 2. *)
Definition kWeightKey : regex :=
  Cat (Alt (Lit "weight") (Alt (Lit "label") (Lit "w")))
      (Cat (Star Text.isspace) (Cat (Lit "=") (Star Text.isspace))).

(** The text consumed between [s] and its suffix [s']. *)
Definition taken (s s' : string) : string :=
  String.substring 0 (String.length s - String.length s') s.

(** [kWeightRegex] is [kWeightKey] followed by group 2, which is
    [kNumberOnly]; a match anchored at [s] yields the text of group 2. *)
Definition match_weight_here (s : string) : option string :=
  head (flat_map (fun s1 => map (taken s1) (ends kNumberOnly s1)) (ends kWeightKey s)).

(** A match of [kNumberOnly] anchored at [s] yields the whole match. *)
Definition match_number_here (s : string) : option string :=
  head (map (taken s) (ends kNumberOnly s)).

(** [std::regex_search]: the leftmost start at which the anchored match
    succeeds. *)
Fixpoint regex_search (here : string -> option string) (s : string) : option string :=
  match here s with
  | Some m => Some m
  | None =>
      match s with
      | EmptyString => None
      | String _ s' => regex_search here s'
      end
  end.

End Regex.


(** ** [std::stod] on decimal literals

    The conversion is the correctly rounded one (round to nearest, ties to
    even).  glibc's [strtod] reports ERANGE on overflow and on a result
    that is tiny and inexact, and libstdc++'s [stod] then throws
    [std::out_of_range]; with no digits to convert it throws
    [std::invalid_argument].  Tininess is decided as glibc does on x86-64,
    on the exact value rounded to 53 bits with an unbounded exponent, before
    it is rounded to the format: so a literal between the largest subnormal
    and [DBL_MIN] can round to [DBL_MIN] and still be out of range.  Hexadecimal literals, [inf] and [nan] are
    not modelled: [ParseWeight] only passes text matched by
    [kNumberOnly]. *)

Module Stod.

Definition digit_value (c : ascii) : Z := (Z.of_nat (nat_of_ascii c) - 48)%Z.

Fixpoint read_digits (s : string) (acc : Z) (count : nat) : Z * nat * string :=
  match s with
  | String c s' =>
      if Text.isdigit c
      then read_digits s' (10 * acc + digit_value c)%Z (S count)
      else (acc, count, s)
  | EmptyString => (acc, count, s)
  end.

Fixpoint skip_space (s : string) : string :=
  match s with
  | String c s' => if Text.isspace c then skip_space s' else s
  | EmptyString => s
  end.

Definition read_sign (s : string) : bool * string :=
  match s with
  | String c s' =>
      if Ascii.eqb c (Ascii.ascii_of_nat 45) then (true, s')
      else if Ascii.eqb c (Ascii.ascii_of_nat 43) then (false, s')
      else (false, s)
  | EmptyString => (false, s)
  end.

Definition read_exponent (s : string) : Z :=
  match s with
  | String c s' =>
      if Regex.is_exp c
      then let (neg, s1) := read_sign s' in
           let '(v, n, _) := read_digits s1 0%Z 0%nat in
           if Nat.eqb n 0 then 0%Z else if neg then (- v)%Z else v
      else 0%Z
  | EmptyString => 0%Z
  end.

(** Sign, decimal mantissa [m] and decimal exponent [e] of the longest
    literal at the head of [s]: its value is [m * 10^e]. *)
Definition parse_decimal (s : string) : option (bool * Z * Z) :=
  let (neg, s1) := read_sign (skip_space s) in
  let '(ip, ni, s2) := read_digits s1 0%Z 0%nat in
  let '(m, nf, s3) :=
    match s2 with
    | String c s2' =>
        if Ascii.eqb c (Ascii.ascii_of_nat 46) then read_digits s2' ip 0%nat else (ip, 0%nat, s2)
    | EmptyString => (ip, 0%nat, s2)
    end in
  if Nat.eqb (ni + nf) 0 then None
  else Some (neg, m, (read_exponent s3 - Z.of_nat nf)%Z).

(** The binary64 nearest to [p / q], for [p, q > 0]. *)
Definition round_ratio (neg : bool) (p q : Z) : spec_float :=
  let s := Z.max 0 (Z.log2 q - Z.log2 p + 64) in
  let num := (p * 2 ^ s)%Z in
  let n := (num / q)%Z in
  let r := (num mod q)%Z in
  let loc := if (r =? 0)%Z then loc_Exact else loc_Inexact (Z.compare (2 * r) q) in
  binary_round_aux prec emax neg n (- s) loc.

(** Whether the finite [m * 2^e] is exactly [p / q]. *)
Definition exact (m : positive) (e p q : Z) : bool :=
  (Z.pos m * 2 ^ Z.max e 0 * q =? p * 2 ^ Z.max (- e) 0)%Z.

(** Whether [p / q], rounded to 53 bits with an unbounded exponent, is
    below [DBL_MIN = 2^-1022]: below [2^-1022 - 2^-1076], the midpoint
    between [DBL_MIN] and the 53-bit number before it, which is rounded up
    to the even [DBL_MIN]. *)
Definition tiny (p q : Z) : bool := (p * 2 ^ 1076 <? (2 ^ 54 - 1) * q)%Z.

Definition stod (s : string) : outcome float :=
  match parse_decimal s with
  | None => Throw "stod"
  | Some (neg, m, e) =>
      if (m =? 0)%Z then Ok (SF2Prim (S754_zero neg))
      else
        let p := (m * 10 ^ Z.max e 0)%Z in
        let q := (10 ^ Z.max (- e) 0)%Z in
        match round_ratio neg p q with
        | S754_finite sg mm ee =>
            if tiny p q && negb (exact mm ee p q)
            then Throw "stod"
            else Ok (SF2Prim (S754_finite sg mm ee))
        | S754_zero _ => Throw "stod"
        | S754_infinity _ => Throw "stod"
        | S754_nan => Throw "stod"
        end
  end.

End Stod.

(** ** Graph *)

Record RawEdge : Type := {
  from : string;
  to : string;
  weight : float;
  bidirectional : bool
}.

(** [ParseWeight]: [Ok None] is [std::nullopt]. *)
Definition ParseWeight (attributes : string) : outcome (option float) :=
  let attr := Text.c_str attributes in
  match Regex.regex_search Regex.match_weight_here attr with
  | Some m2 => obind (Stod.stod m2) (fun w => Ok (Some w))
  | None =>
      match Regex.regex_search Regex.match_number_here attr with
      | Some m0 => obind (Stod.stod m0) (fun w => Ok (Some w))
      | None => Ok None
      end
  end.

Definition no_edge : RawEdge :=
  {| from := ""; to := ""; weight := 1; bidirectional := false |}.

Definition is_empty (s : string) : bool := Nat.eqb (String.length s) 0.

(** What [ParseEdgeLine] has in [from_token], [to_token] and [attributes]
    when it reaches the emptiness test of the two tokens, with the flag
    [bidirectional]; [None] on the two earlier returns. *)
Definition split_edge_line (line : string) : option (string * string * string * bool) :=
  let trimmed := Text.Trim line in
  if is_empty trimmed || Ascii.eqb (Text.char_at trimmed 0) (Ascii.ascii_of_nat 35)
  then None
  else
    let arrow :=
      match Text.find "->" trimmed with
      | Some pos => Some (pos, false)
      | None =>
          match Text.find "--" trimmed with
          | Some pos => Some (pos, true)
          | None => None
          end
      end in
    match arrow with
    | None => None
    | Some (arrow_pos, bidir) =>
        let operator_length := 2%nat in
        let from_token := Text.Trim (String.substring 0 arrow_pos trimmed) in
        let rest := Text.substr_from (arrow_pos + operator_length) trimmed in
        let '(to_token0, attributes) :=
          match Text.find "[" rest with
          | Some bracket_pos =>
              (Text.Trim (String.substring 0 bracket_pos rest),
               Text.substr_from bracket_pos rest)
          | None => (rest, EmptyString)
          end in
        let to_token1 :=
          match Text.find ";" to_token0 with
          | Some semicolon_pos => String.substring 0 semicolon_pos to_token0
          | None => to_token0
          end in
        Some (from_token, Text.Trim to_token1, attributes, bidir)
    end.

Definition ParseEdgeLine (line : string) : outcome RawEdge :=
  match split_edge_line line with
  | None => Ok no_edge
  | Some (from_token, to_token, attributes, bidir) =>
      if is_empty from_token || is_empty to_token then Ok no_edge
      else
        obind (if is_empty attributes then Ok None else ParseWeight attributes)
              (fun parsed =>
                 Ok {| from := Text.StripQuotes from_token;
                       to := Text.StripQuotes to_token;
                       weight := match parsed with Some w => w | None => 1 end;
                       bidirectional := bidir |})
  end.

Record Graph : Type := {
  index_to_label_ : list string;
  label_to_index_ : gmap string nat;
  adjacency_ : list (list float)
}.

(** [Graph{}] *)
Definition empty_graph : Graph :=
  {| index_to_label_ := []; label_to_index_ := ∅; adjacency_ := [] |}.

Definition VertexCount (g : Graph) : nat := length (index_to_label_ g).

(** [adjacency_[from][to]]; reading outside the matrix is undefined in the
    source and yields NaN here. *)
Definition Weight (g : Graph) (i j : nat) : float :=
  match adjacency_ g !! i with
  | Some row => match row !! j with Some w => w | None => nan end
  | None => nan
  end.

(** [index_to_label_[index]]; outside the vector (undefined in the source)
    the empty string. *)
Definition Label (g : Graph) (index : nat) : string :=
  match index_to_label_ g !! index with
  | Some l => l
  | None => EmptyString
  end.

(** [std::string]'s [operator<=], the order [std::sort] leaves the labels in. *)
Definition label_le (a b : string) : Prop := String.leb a b = true.
#[global] Instance label_le_dec a b : Decision (label_le a b).
Proof. unfold label_le. apply _. Defined.

(** The reading loop of [FromGraphviz]: the edges kept, in order, and the
    set of labels seen. *)
Fixpoint read_edges (lines : list string) (edges : list RawEdge) (labels : gset string)
  : outcome (list RawEdge * gset string) :=
  match lines with
  | [] => Ok (edges, labels)
  | line :: lines' =>
      obind (ParseEdgeLine line) (fun edge =>
        if is_empty (from edge) || is_empty (to edge)
        then read_edges lines' edges labels
        else read_edges lines' (edges ++ [edge]) ({[ to edge ]} ∪ ({[ from edge ]} ∪ labels)))
  end.

(** [label_to_index_.emplace(sorted_labels[i], i)] for [i] from [start]:
    [emplace] keeps an entry that is already there. *)
Fixpoint emplace_labels (sorted_labels : list string) (start : nat) (m : gmap string nat)
  : gmap string nat :=
  match sorted_labels with
  | [] => m
  | l :: rest =>
      emplace_labels rest (S start)
        (match m !! l with Some _ => m | None => <[ l := start ]> m end)
  end.

(** [adjacency_[i][j] = w] *)
Definition set_cell (adj : list (list float)) (i j : nat) (w : float) : list (list float) :=
  alter (fun row => <[ j := w ]> row) i adj.

Definition zero_diagonal (n : nat) (adj : list (list float)) : list (list float) :=
  foldl (fun a i => set_cell a i i 0) adj (seq 0 n).

Definition add_edge (index : gmap string nat) (adj : list (list float)) (edge : RawEdge)
  : list (list float) :=
  match index !! from edge, index !! to edge with
  | Some f, Some t =>
      let adj1 := set_cell adj f t (weight edge) in
      if bidirectional edge then set_cell adj1 t f (weight edge) else adj1
  | _, _ => adj
  end.

Definition build_graph (edges : list RawEdge) (labels : gset string) : Graph :=
  if bool_decide (labels = ∅) then empty_graph
  else
    let sorted_labels := merge_sort label_le (elements labels) in
    let index := emplace_labels sorted_labels 0 ∅ in
    let n := length sorted_labels in
    let adj0 := replicate n (replicate n Dbl.kInfinity) in
    {| index_to_label_ := sorted_labels;
       label_to_index_ := index;
       adjacency_ := foldl (add_edge index) (zero_diagonal n adj0) edges |}.

Definition FromGraphviz (input : string) : outcome Graph :=
  obind (read_edges (Text.getlines input) [] ∅) (fun '(edges, labels) =>
    Ok (build_graph edges labels)).

(** [FromGraphvizFile]: [None] is a path that cannot be opened. *)
Definition FromGraphvizFile (file : option string) : outcome Graph :=
  match file with
  | None => Throw "Unable to open graph file"
  | Some input => FromGraphviz input
  end.

(** *** [Graph::CanonicalizeTour] *)

(** The [append] lambda of [build_key]. *)
Definition append (g : Graph) (key : string) (index : nat) : string :=
  (if is_empty key then key else key +:+ ">") +:+ Label g index.

(** [cycle[k]] *)
Definition cycle_at (cycle : list nat) (k : nat) : nat :=
  match cycle !! k with
  | Some v => v
  | None => 0%nat
  end.

(** The positions of [cycle] read by the forward loop from [start]. *)
Definition forward_order (n start : nat) : list nat :=
  map (fun i => (start + i) mod n)%nat (seq 0 n).

(** The positions read by the reverse loop: [index] steps down and wraps
    from [0] to [n - 1]. *)
Fixpoint reverse_order (n index count : nat) : list nat :=
  match count with
  | O => []
  | S count' =>
      index :: reverse_order n (if Nat.eqb index 0 then n - 1 else index - 1)%nat count'
  end.

Definition visit (cycle : list nat) (start : nat) (reverse : bool) : list nat :=
  let n := length cycle in
  map (cycle_at cycle)
      (if reverse then reverse_order n (start mod n) n else forward_order n start).

Definition build_key (g : Graph) (cycle : list nat) (start : nat) (reverse : bool) : string :=
  foldl (append g) EmptyString (visit cycle start reverse).

(** One round of the loop over [shift]. *)
Definition try_shift (g : Graph) (cycle : list nat)
    (best : string * nat * bool) (shift : nat) : string * nat * bool :=
  let forward_key := build_key g cycle shift false in
  let best1 :=
    if String.ltb forward_key (fst (fst best)) then (forward_key, shift, false) else best in
  let reverse_key := build_key g cycle shift true in
  if String.ltb reverse_key (fst (fst best1)) then (reverse_key, shift, true) else best1.

Definition front (l : list nat) : list nat :=
  match l with
  | x :: _ => [x]
  | [] => []
  end.

Definition CanonicalizeTour (g : Graph) (tour : list nat) : list nat :=
  if Nat.leb (length tour) 1 then tour
  else
    let cycle :=
      if bool_decide (head tour = last tour) then removelast tour else tour in
    match cycle with
    | [] => tour
    | _ =>
        let n := length cycle in
        let '(_, best_shift, best_reverse) :=
          foldl (try_shift g cycle) (build_key g cycle 0 false, 0%nat, false) (seq 0 n) in
        let result := visit cycle best_shift best_reverse in
        result ++ front result
    end.

(** ** Solver *)

Record AntColonyParameters : Type := {
  ants : nat;
  iterations : nat;
  alpha : float;
  beta : float;
  evaporation : float;
  q : float;
  seed : Z
}.

(** [elapsed_ms] is wall-clock time and is left out. *)
Record TourResult : Type := {
  best_length : float;
  best_paths : list (list nat);
  best_paths_labels : list string
}.

(** The default-constructed [TourResult]. *)
Definition no_result : TourResult :=
  {| best_length := Dbl.kInfinity; best_paths := []; best_paths_labels := [] |}.

(** [AntPath]; its member [length] is [path_length] here. *)
Record AntPath : Type := {
  path : list nat;
  path_length : float
}.

Definition dead_end : AntPath := {| path := []; path_length := Dbl.kInfinity |}.

(** [std::mt19937] with the two distributions the solver draws from.
    [uniform_int a b] is [std::uniform_int_distribution<size_t>(a, b)],
    whose results lie in [[a, b]]; [uniform_real a b] is
    [std::uniform_real_distribution<double>(a, b)]. *)
Record RandomEngine : Type := {
  rng : Type;
  mt19937 : Z -> rng;
  uniform_int : nat -> nat -> rng -> nat * rng;
  uniform_real : float -> float -> rng -> float * rng;
  uniform_int_range :
    forall a b r, (a <= b)%nat -> (a <= fst (uniform_int a b r) <= b)%nat
}.

(** [v.empty()] *)
Definition is_nil {A : Type} (l : list A) : bool :=
  match l with
  | [] => true
  | _ :: _ => false
  end.

Abbreviation matrix := (list (list float)).

(** [m[i][j]]; outside the matrix (undefined in the source) NaN. *)
Definition cell (m : matrix) (i j : nat) : float :=
  match m !! i with
  | Some row => match row !! j with Some x => x | None => nan end
  | None => nan
  end.

(** [m[i][j] += x] *)
Definition add_cell (m : matrix) (i j : nat) (x : float) : matrix :=
  alter (fun row => alter (fun y => y + x) j row) i m.

Definition Heuristic (weight : float) : float :=
  if (weight <=? 0) || Dbl.isinf weight then 0 else 1 / weight.

Definition AreEqual (a b : float) : bool :=
  let kEps := 1e-9 in
  Dbl.fabs (a - b) <=? kEps.

(** The clamp floor of the pheromone update. *)
Definition kFloor : float := 1e-12.

Section AntColonySolver.

Variable pow : float -> float -> float.
Variable E : RandomEngine.
Variable graph_ : Graph.

Definition InitialPheromone : matrix :=
  let n := VertexCount graph_ in
  replicate n (replicate n 1).

(** The loop of [ComputePathLength] from position [i] on, [length] being
    the sum so far. *)
Fixpoint sum_edges (path : list nat) (length : float) : float :=
  match path with
  | u :: rest =>
      match rest with
      | v :: _ =>
          let weight := Weight graph_ u v in
          if Dbl.isfinite weight then sum_edges rest (length + weight)
          else Dbl.kInfinity
      | [] => length
      end
  | [] => length
  end.

Definition ComputePathLength (path : list nat) : float :=
  if Nat.ltb (length path) 2 then Dbl.kInfinity else sum_edges path 0.

(** The loop over [next] of [ConstructSolution]: the candidates, their
    probabilities and [sum].  [visited] holds [true] for the source's 1. *)
Definition scan_step (params : AntColonyParameters) (pheromone : matrix)
    (visited : list bool) (current : nat)
    (acc : list nat * list float * float) (next : nat) : list nat * list float * float :=
  let '(candidates, probabilities, sum) := acc in
  if default false (visited !! next) then acc
  else
    let weight := Weight graph_ current next in
    let tau := pow (cell pheromone current next) (alpha params) in
    let eta := pow (Heuristic weight) (beta params) in
    let value := tau * eta in
    if value <=? 0 then acc
    else (candidates ++ [next], probabilities ++ [value], sum + value).

Definition scan_candidates (params : AntColonyParameters) (pheromone : matrix)
    (visited : list bool) (current : nat) : list nat * list float * float :=
  foldl (scan_step params pheromone visited current) ([], [], 0) (seq 0 (VertexCount graph_)).

(** [while (choice > cumulative && index + 1 < probabilities.size())]:
    [rest] is what follows [probabilities[index]]. *)
Fixpoint pick (choice cumulative : float) (index : nat) (rest : list float) : nat :=
  match rest with
  | [] => index
  | p :: rest' =>
      if cumulative <? choice then pick choice (cumulative + p) (S index) rest'
      else index
  end.

Definition pick_index (choice : float) (probabilities : list float) : nat :=
  match probabilities with
  | p0 :: rest => pick choice p0 0 rest
  | [] => 0%nat
  end.

(** [steps] further rounds of the loop over [step]; [None] is the return
    on an empty candidate list. *)
Fixpoint construct_steps (params : AntColonyParameters) (pheromone : matrix)
    (steps : nat) (current : nat) (visited : list bool) (path : list nat) (r : rng E)
  : option (list nat) * rng E :=
  match steps with
  | O => (Some path, r)
  | S steps' =>
      let '(candidates, probabilities, sum) :=
        scan_candidates params pheromone visited current in
      match candidates with
      | [] => (None, r)
      | _ :: _ =>
          let (choice, r') := uniform_real E 0 sum r in
          let index := pick_index choice probabilities in
          let current' := default 0%nat (candidates !! index) in
          construct_steps params pheromone steps' current'
            (<[ current' := true ]> visited) (path ++ [current']) r'
      end
  end.

Definition ConstructSolution (params : AntColonyParameters) (pheromone : matrix) (r : rng E)
  : AntPath * rng E :=
  let n := VertexCount graph_ in
  if Nat.eqb n 0 then ({| path := []; path_length := Dbl.kInfinity |}, r)
  else
    let (current, r1) := uniform_int E 0 (n - 1) r in
    let visited := <[ current := true ]> (replicate n false) in
    match construct_steps params pheromone (n - 1) current visited [current] r1 with
    | (None, r2) => (dead_end, r2)
    | (Some p, r2) =>
        let closed := p ++ front p in
        let len := ComputePathLength closed in
        if Dbl.isfinite len then ({| path := closed; path_length := len |}, r2)
        else (dead_end, r2)
    end.

Fixpoint deposit_edges (p : list nat) (deposit : float) (deltas : matrix) : matrix :=
  match p with
  | u :: rest =>
      match rest with
      | v :: _ => deposit_edges rest deposit (add_cell deltas u v deposit)
      | [] => deltas
      end
  | [] => deltas
  end.

Definition DepositPheromone (p : AntPath) (q : float) (deltas : matrix) : matrix :=
  if Nat.ltb (length (path p)) 2 || negb (Dbl.isfinite (path_length p)) then deltas
  else deposit_edges (path p) (q / path_length p) deltas.

(** The label string of [UpdateBest]. *)
Definition serialize (canonical : list nat) : string :=
  fst (foldl (fun '(serialized, i) v =>
                ((if Nat.eqb i 0 then serialized else serialized +:+ "->")
                   +:+ Label graph_ v, S i))
             (EmptyString, 0%nat) canonical).

Definition UpdateBest (candidate : AntPath) (result : TourResult) : TourResult :=
  if is_nil (path candidate) || negb (Dbl.isfinite (path_length candidate)) then result
  else
    let canonical := CanonicalizeTour graph_ (path candidate) in
    let serialized := serialize canonical in
    if is_nil (best_paths result) || (path_length candidate + 1e-9 <? best_length result)
    then {| best_length := path_length candidate;
            best_paths := [canonical];
            best_paths_labels := [serialized] |}
    else if AreEqual (path_length candidate) (best_length result)
    then
      if bool_decide (serialized ∈ best_paths_labels result) then result
      else {| best_length := best_length result;
              best_paths := best_paths result ++ [canonical];
              best_paths_labels := best_paths_labels result ++ [serialized] |}
    else result.

(** The evaporation loops: every cell of the [n]-by-[n] field is rewritten
    once, from its own old value and the same cell of [delta]. *)
Definition clamp (x : float) : float := if x <? kFloor then kFloor else x.

Definition evaporate (params : AntColonyParameters) (pheromone delta : matrix) : matrix :=
  imap (fun i row =>
          imap (fun j x => clamp ((1 - evaporation params) * x + cell delta i j)) row)
       pheromone.

Definition zero_matrix : matrix :=
  let n := VertexCount graph_ in
  replicate n (replicate n 0).

(** *** [RunSequential] *)

(** [count] rounds of the loop over [ant]. *)
Fixpoint ants_loop (params : AntColonyParameters) (pheromone : matrix) (count : nat)
    (st : rng E * matrix * TourResult) : rng E * matrix * TourResult :=
  match count with
  | O => st
  | S count' =>
      let '(r, delta, result) := st in
      let (p, r') := ConstructSolution params pheromone r in
      ants_loop params pheromone count'
        (if is_nil (path p) then (r', delta, result)
         else (r', DepositPheromone p (q params) delta, UpdateBest p result))
  end.

Definition sequential_iteration (params : AntColonyParameters)
    (st : matrix * rng E * TourResult) : matrix * rng E * TourResult :=
  let '(pheromone, r, result) := st in
  let '(r', delta, result') :=
    ants_loop params pheromone (ants params) (r, zero_matrix, result) in
  (evaporate params pheromone delta, r', result').

(** The state after [count] iterations. *)
Fixpoint sequential_loop (params : AntColonyParameters) (count : nat)
  : matrix * rng E * TourResult :=
  match count with
  | O => (InitialPheromone, mt19937 E (seed params), no_result)
  | S count' => sequential_iteration params (sequential_loop params count')
  end.

Definition RunSequential (params : AntColonyParameters) : TourResult :=
  snd (sequential_loop params (iterations params)).

(** *** [RunParallel] *)

(** [params.seed + static_cast<unsigned int>(t * 9973 + iteration * 7919)] *)
Definition worker_seed (params : AntColonyParameters) (t iteration : nat) : Z :=
  ((seed params
    + ((Z.of_nat t * 9973 + Z.of_nat iteration * 7919) mod 2 ^ 64) mod 2 ^ 32)
   mod 2 ^ 32)%Z.

(** [count] rounds of a worker's loop over [ant]. *)
Fixpoint worker_loop (params : AntColonyParameters) (pheromone : matrix) (count : nat)
    (st : rng E * matrix * float * list AntPath) : rng E * matrix * float * list AntPath :=
  match count with
  | O => st
  | S count' =>
      let '(r, local_delta, thread_best_length, thread_best_paths) := st in
      let (p, r') := ConstructSolution params pheromone r in
      worker_loop params pheromone count'
        (if is_nil (path p) then (r', local_delta, thread_best_length, thread_best_paths)
         else
           let local_delta' := DepositPheromone p (q params) local_delta in
           if path_length p + 1e-9 <? thread_best_length
           then (r', local_delta', path_length p, [p])
           else if AreEqual (path_length p) thread_best_length
           then (r', local_delta', thread_best_length, thread_best_paths ++ [p])
           else (r', local_delta', thread_best_length, thread_best_paths))
  end.

(** What worker [t] leaves behind in one iteration: [local_deltas[t]] and
    the [thread_best_paths] it hands to [UpdateBest] under the mutex. *)
Definition worker (params : AntColonyParameters) (thread_count : nat) (pheromone : matrix)
    (iteration t : nat) : matrix * list AntPath :=
  let base := (ants params / thread_count)%nat in
  let remainder := (ants params mod thread_count)%nat in
  let assigned := (base + (if Nat.ltb t remainder then 1 else 0))%nat in
  if Nat.eqb assigned 0 then (zero_matrix, [])
  else
    let '(_, local_delta, _, thread_best_paths) :=
      worker_loop params pheromone assigned
        (mt19937 E (worker_seed params t iteration), zero_matrix, Dbl.kInfinity, []) in
    (local_delta, thread_best_paths).

(** The critical section of one worker. *)
Definition merge_worker (result : TourResult) (thread_best_paths : list AntPath) : TourResult :=
  foldl (fun res best_local => UpdateBest best_local res) result thread_best_paths.

Definition matrix_add (a b : matrix) : matrix :=
  imap (fun i row => imap (fun j x => x + cell b i j) row) a.

(** One iteration.  The workers only share [result], which each of them
    updates inside one critical section guarded by [best_mutex]; [order]
    lists the workers in the order in which they enter it. *)
Definition parallel_iteration (params : AntColonyParameters) (thread_count : nat)
    (order : list nat) (iteration : nat) (st : matrix * TourResult) : matrix * TourResult :=
  let (pheromone, result) := st in
  let locals := map (worker params thread_count pheromone iteration) (seq 0 thread_count) in
  let result' :=
    foldl (fun res t =>
             match locals !! t with
             | Some (_, thread_best_paths) => merge_worker res thread_best_paths
             | None => res
             end) result order in
  let delta := foldl matrix_add zero_matrix (map fst locals) in
  (evaporate params pheromone delta, result').

(** The state after [count] iterations under the lock orders [schedule]. *)
Fixpoint parallel_loop (params : AntColonyParameters) (thread_count : nat)
    (schedule : nat -> list nat) (count : nat) : matrix * TourResult :=
  match count with
  | O => (InitialPheromone, no_result)
  | S count' =>
      parallel_iteration params thread_count (schedule count') count'
        (parallel_loop params thread_count schedule count')
  end.

Definition RunParallel (params : AntColonyParameters) (thread_count : nat)
    (schedule : nat -> list nat) : TourResult :=
  if Nat.eqb thread_count 0 then no_result
  else snd (parallel_loop params thread_count schedule (iterations params)).

End AntColonySolver.

(** ** A concrete libm and a concrete engine

    Instances of the two library parameters, to evaluate the solver on
    concrete inputs. *)

(** The integer a float is, if it is one. *)
Definition float_integer (y : float) : option Z :=
  match Prim2SF y with
  | S754_zero _ => Some 0%Z
  | S754_finite s m e =>
      if (0 <=? e)%Z then Some (cond_Zopp s (Z.pos m * 2 ^ e))
      else if (Z.pos m mod 2 ^ (- e) =? 0)%Z then Some (cond_Zopp s (Z.pos m / 2 ^ (- e)))
      else None
  | _ => None
  end.

Fixpoint power (x : float) (k : nat) : float :=
  match k with
  | O => 1
  | S k' => x * power x k'
  end.

(** [pow] as C's Annex F fixes it on zeros, ones and NaNs, and by repeated
    multiplication on integral exponents up to 1024 in magnitude; NaN on
    the other arguments, which no example below reaches. *)
Definition pow_model (x y : float) : float :=
  if y =? 0 then 1
  else if x =? 1 then 1
  else if x =? 0 then
    (if 0 <? y
     then match float_integer y with
          | Some k => if Z.odd k then x else 0
          | None => 0
          end
     else match float_integer y with
          | Some k => if Z.odd k then 1 / x else infinity
          | None => infinity
          end)
  else if is_nan x || is_nan y then nan
  else
    match float_integer y with
    | Some k =>
        if (Z.abs k <=? 1024)%Z
        then if (0 <=? k)%Z then power x (Z.to_nat k) else 1 / power x (Z.to_nat (- k))
        else nan
    | None => nan
    end.

(** A linear congruential generator standing in for [std::mt19937]. *)
Definition lcg_next (s : Z) : Z := ((s * 1103515245 + 12345) mod 2 ^ 31)%Z.

Definition lcg_int (a b : nat) (s : Z) : nat * Z :=
  ((a + Z.to_nat ((s / 65536) mod Z.of_nat (b - a + 1)))%nat, lcg_next s).

Definition lcg_real (a b : float) (s : Z) : float * Z :=
  (a + (b - a) * (of_uint63 (Uint63.of_Z ((s / 65536) mod 1024)) / 1024), lcg_next s).

Lemma lcg_int_range (a b : nat) (s : Z) :
  (a <= b)%nat -> (a <= fst (lcg_int a b s) <= b)%nat.
Proof.
  intros Hab. unfold lcg_int. cbn [fst].
  assert (H : (0 <= (s / 65536) mod Z.of_nat (b - a + 1) < Z.of_nat (b - a + 1))%Z)
    by (apply Z.mod_pos_bound; lia).
  lia.
Qed.

Definition lcg_engine : RandomEngine :=
  {| rng := Z;
     mt19937 := fun sd => lcg_next (sd mod 2 ^ 32)%Z;
     uniform_int := lcg_int;
     uniform_real := lcg_real;
     uniform_int_range := lcg_int_range |}.

(** The parameter defaults of [AntColonyParameters]. *)
Definition default_params : AntColonyParameters :=
  {| ants := 64; iterations := 100; alpha := 1; beta := 3;
     evaporation := 0.5; q := 100; seed := 42 |}.

(** What [FromGraphviz] returns, or [Graph{}] when it throws. *)
Definition parsed (input : string) : Graph :=
  match FromGraphviz input with
  | Ok g => g
  | Throw _ => empty_graph
  end.

(** * Properties *)

(** ** The order on [std::string] *)

Module StrOrd.

Lemma compare_refl (s : string) : String.compare s s = Eq.
Proof.
  pose proof (String.compare_antisym s s) as H.
  destruct (String.compare s s); cbn in H; congruence.
Qed.

Lemma ltb_irrefl (s : string) : String.ltb s s = false.
Proof. unfold String.ltb. now rewrite compare_refl. Qed.

Lemma ltb_lt (a b : string) : String.ltb a b = true <-> OrderedTypeEx.String_as_OT.lt a b.
Proof.
  unfold String.ltb. rewrite <- OrderedTypeEx.String_as_OT.cmp_lt.
  unfold OrderedTypeEx.String_as_OT.cmp.
  destruct (String.compare a b); split; congruence.
Qed.

Lemma ltb_trans (a b c : string) :
  String.ltb a b = true -> String.ltb b c = true -> String.ltb a c = true.
Proof.
  rewrite !ltb_lt. apply OrderedTypeEx.String_as_OT.lt_trans.
Qed.

(** [ltb a b = false] reads [b <= a]. *)
Lemma ltb_false_cases (a b : string) :
  String.ltb a b = false <-> a = b \/ String.ltb b a = true.
Proof.
  split.
  - unfold String.ltb. rewrite (String.compare_antisym b a).
    destruct (String.compare a b) eqn:Hc; cbn; intros H; try congruence; auto.
    left. now apply String.compare_eq_iff.
  - intros [-> | H]; [apply ltb_irrefl|].
    unfold String.ltb in *. rewrite (String.compare_antisym a b).
    destruct (String.compare b a); cbn; congruence.
Qed.


(** [a <= b] and [b <= c] give [a <= c]. *)
Lemma le_trans (a b c : string) :
  String.ltb b a = false -> String.ltb c b = false -> String.ltb c a = false.
Proof.
  intros H1 H2.
  apply ltb_false_cases in H1 as [-> | H1]; [assumption|].
  apply ltb_false_cases in H2 as [-> | H2].
  - apply ltb_false_cases. now right.
  - apply ltb_false_cases. right. eapply ltb_trans; eassumption.
Qed.

(** [a < b] and [b <= c] give [a < c]. *)
Lemma lt_le_trans (a b c : string) :
  String.ltb a b = true -> String.ltb c b = false -> String.ltb a c = true.
Proof.
  intros H1 H2.
  apply ltb_false_cases in H2 as [-> | H2]; [assumption|].
  eapply ltb_trans; eassumption.
Qed.

End StrOrd.

(** ** C10: tours of at most one element *)

(** C10. A tour with at most one element is returned as it is by
    [CanonicalizeTour]; in particular a one-element tour is not closed by
    a second copy of its element. *)
Theorem CanonicalizeTour_short (g : Graph) (t : list nat) :
  (length t <= 1)%nat ->
  CanonicalizeTour g t = t /\ forall x, CanonicalizeTour g [x] = [x].
Proof.
  intros Hlen. split.
  - unfold CanonicalizeTour.
    destruct (Nat.leb (length t) 1) eqn:Hle; [reflexivity|].
    apply Nat.leb_gt in Hle. lia.
  - intros x. reflexivity.
Qed.

Lemma CanonicalizeTour_short_witness :
  (length [5%nat] <= 1)%nat
  /\ (CanonicalizeTour empty_graph [5%nat] = [5%nat]
      /\ forall x, CanonicalizeTour empty_graph [x] = [x]).
Proof.
  split; [simpl; lia | apply (CanonicalizeTour_short empty_graph [5%nat]); simpl; lia].
Defined.

(** ** C4: a stream without edges *)

Lemma read_edges_no_edge (lines : list string) (edges : list RawEdge) (labels : gset string) :
  (forall line, In line lines ->
     exists e, ParseEdgeLine line = Ok e /\ is_empty (from e) || is_empty (to e) = true) ->
  read_edges lines edges labels = Ok (edges, labels).
Proof.
  induction lines as [|line lines IH]; intros H; [reflexivity|].
  cbn [read_edges].
  destruct (H line (or_introl eq_refl)) as (e & He & Hempty).
  rewrite He. cbn [obind]. rewrite Hempty.
  apply IH. intros l Hl. apply H. now right.
Qed.

Lemma build_graph_empty : build_graph [] ∅ = empty_graph.
Proof. unfold build_graph. now rewrite bool_decide_eq_true_2. Qed.

(** Whether [FromGraphviz] keeps an edge for [line]: [ParseEdgeLine]
    returns, with both labels non-empty. *)
Definition yields_edge (line : string) : bool :=
  match ParseEdgeLine line with
  | Ok e => negb (is_empty (from e) || is_empty (to e))
  | Throw _ => false
  end.

(** Whether [ParseEdgeLine] throws on [line]. *)
Definition parse_throws (line : string) : bool :=
  match ParseEdgeLine line with
  | Ok _ => false
  | Throw _ => true
  end.

(** The text [ParseWeight] hands to [std::stod], if any. *)
Definition weight_text (attributes : string) : option string :=
  let attr := Text.c_str attributes in
  match Regex.regex_search Regex.match_weight_here attr with
  | Some m2 => Some m2
  | None => Regex.regex_search Regex.match_number_here attr
  end.

Lemma ParseWeight_throws (attributes : string) (m : string) :
  ParseWeight attributes = Throw m ->
  exists n, weight_text attributes = Some n /\ Stod.stod n = Throw m.
Proof.
  unfold ParseWeight, weight_text. cbv zeta.
  destruct (Regex.regex_search Regex.match_weight_here _) as [m2|].
  - destruct (Stod.stod m2) as [w|m'] eqn:Hs; cbn [obind]; [discriminate|].
    intros [= <-]. now exists m2.
  - destruct (Regex.regex_search Regex.match_number_here _) as [m0|]; [|discriminate].
    destruct (Stod.stod m0) as [w|m'] eqn:Hs; cbn [obind]; [discriminate|].
    intros [= <-]. now exists m0.
Qed.

(** [ParseEdgeLine] throws only from [std::stod], on the number found in
    the attribute part of a line whose two tokens are not empty. *)
Lemma ParseEdgeLine_throws (line : string) :
  parse_throws line = true ->
  exists from_token to_token attributes bidir n m,
    split_edge_line line = Some (from_token, to_token, attributes, bidir)
    /\ is_empty from_token || is_empty to_token = false
    /\ weight_text attributes = Some n
    /\ Stod.stod n = Throw m
    /\ ParseEdgeLine line = Throw m.
Proof.
  unfold parse_throws, ParseEdgeLine.
  destruct (split_edge_line line) as [[[[f t] a] b]|]; [|discriminate].
  destruct (is_empty f || is_empty t) eqn:Htok; [discriminate|].
  destruct (is_empty a); [discriminate|].
  destruct (ParseWeight a) as [w|m] eqn:Hw; [discriminate|]. intros _.
  destruct (ParseWeight_throws a m Hw) as (n & Hn & Hs).
  exists f, t, a, b, n, m. repeat split; assumption || reflexivity.
Qed.

Lemma read_edges_throws (lines : list string) (edges : list RawEdge) (labels : gset string) :
  forallb (fun line => negb (yields_edge line)) lines = true ->
  existsb parse_throws lines = true ->
  exists m, read_edges lines edges labels = Throw m.
Proof.
  induction lines as [|line lines IH]; [discriminate|].
  cbn [forallb existsb read_edges]. unfold yields_edge at 1, parse_throws at 1.
  destruct (ParseEdgeLine line) as [e|m]; cbn [obind].
  - rewrite andb_true_iff, negb_true_iff, negb_false_iff. intros [He Hrest].
    rewrite He. cbn [orb]. now apply IH.
  - intros _ _. now exists m.
Qed.

Lemma read_edges_skips (lines : list string) (edges : list RawEdge) (labels : gset string) :
  forallb (fun line => negb (yields_edge line)) lines = true ->
  existsb parse_throws lines = false ->
  read_edges lines edges labels = Ok (edges, labels).
Proof.
  intros Hno Hok. apply read_edges_no_edge. intros line Hin.
  pose proof (proj1 (List.forallb_forall _ _) Hno line Hin) as Hy.
  assert (Ht : parse_throws line = false).
  { destruct (parse_throws line) eqn:Ht; [|reflexivity].
    rewrite (proj2 (List.existsb_exists _ _)) in Hok; [discriminate | now exists line]. }
  unfold yields_edge in Hy. unfold parse_throws in Ht.
  destruct (ParseEdgeLine line) as [e|m]; [|discriminate].
  exists e. split; [reflexivity|]. now apply negb_true_iff, negb_false_iff in Hy.
Qed.

(** C4, as the code has it.  On a stream none of whose lines yields an
    edge, [FromGraphviz] returns [Graph{}], the graph with no vertex,
    exactly when [ParseEdgeLine] throws on no line, and so does
    [FromGraphvizFile] on a file that opens.  When [ParseEdgeLine] throws
    on some line, both throw, although the stream has no edge; a line
    throws only from [std::stod], on the number found in its attribute
    part.  A file that cannot be opened makes [FromGraphvizFile] throw. *)
Theorem FromGraphviz_no_edges (input : string) :
  forallb (fun line => negb (yields_edge line)) (Text.getlines input) = true ->
  (existsb parse_throws (Text.getlines input) = false ->
     FromGraphviz input = Ok empty_graph
     /\ FromGraphvizFile (Some input) = Ok empty_graph)
  /\ (existsb parse_throws (Text.getlines input) = true ->
      exists m, FromGraphviz input = Throw m /\ FromGraphvizFile (Some input) = Throw m)
  /\ (forall line, parse_throws line = true ->
        exists from_token to_token attributes bidir n m,
          split_edge_line line = Some (from_token, to_token, attributes, bidir)
          /\ is_empty from_token || is_empty to_token = false
          /\ weight_text attributes = Some n
          /\ Stod.stod n = Throw m
          /\ ParseEdgeLine line = Throw m)
  /\ (exists m, FromGraphvizFile None = Throw m)
  /\ VertexCount empty_graph = 0%nat.
Proof.
  intros Hno. split; [|split; [|split; [|split]]].
  - intros Hok.
    assert (Hg : FromGraphviz input = Ok empty_graph).
    { unfold FromGraphviz. rewrite (read_edges_skips _ _ _ Hno Hok). cbn [obind].
      now rewrite build_graph_empty. }
    split; exact Hg.
  - intros Hbad. destruct (read_edges_throws _ [] ∅ Hno Hbad) as [m Hm].
    assert (Hg : FromGraphviz input = Throw m).
    { unfold FromGraphviz. now rewrite Hm. }
    exists m. split; exact Hg.
  - exact ParseEdgeLine_throws.
  - now exists "Unable to open graph file".
  - reflexivity.
Qed.

Definition no_edge_stream : string := "# a comment
digraph G {
}".

(** A line whose source label is empty once the quotes are stripped, and
    whose weight is beyond the range of a double. *)
Definition bad_weight_stream : string := "'' -> B [w=1e999]".

Lemma FromGraphviz_no_edges_witness :
  (FromGraphviz no_edge_stream = Ok empty_graph
   /\ FromGraphvizFile (Some no_edge_stream) = Ok empty_graph)
  /\ (exists m, FromGraphviz bad_weight_stream = Throw m
                /\ FromGraphvizFile (Some bad_weight_stream) = Throw m).
Proof.
  split.
  - destruct (FromGraphviz_no_edges no_edge_stream) as (H & _); [vm_compute; reflexivity|].
    apply H. vm_compute. reflexivity.
  - destruct (FromGraphviz_no_edges bad_weight_stream) as (_ & H & _);
      [vm_compute; reflexivity|].
    apply H. vm_compute. reflexivity.
Defined.

(** C4 as stated fails: on a stream without any edge line construction
    succeeds, with the empty graph. *)
Lemma FromGraphviz_empty_stream_succeeds :
  FromGraphvizFile (Some EmptyString) = Ok empty_graph
  /\ FromGraphviz no_edge_stream = Ok empty_graph.
Proof. split; reflexivity. Qed.

(** ** C1: a graph with one vertex *)

Section OneVertex.

Variable pow : float -> float -> float.
Variable E : RandomEngine.
Variable g : Graph.
Hypothesis one_vertex : VertexCount g = 1%nat.

(** The only tour there is, and what both runners report for it. *)
Definition loop_length : float := ComputePathLength g [0%nat; 0%nat].
Definition loop_path : AntPath := {| path := [0%nat; 0%nat]; path_length := loop_length |}.
Definition loop_result : TourResult :=
  {| best_length := loop_length;
     best_paths := [[0%nat; 0%nat]];
     best_paths_labels := [serialize g [0%nat; 0%nat]] |}.

Lemma CanonicalizeTour_loop (x : nat) : CanonicalizeTour g [x; x] = [x; x].
Proof.
  unfold CanonicalizeTour. cbn [length Nat.leb].
  rewrite bool_decide_eq_true_2 by reflexivity.
  cbn. unfold try_shift. cbn.
  now rewrite !StrOrd.ltb_irrefl.
Qed.

Lemma ConstructSolution_loop params pheromone r :
  fst (ConstructSolution pow E g params pheromone r)
  = if Dbl.isfinite loop_length then loop_path else dead_end.
Proof.
  unfold ConstructSolution. rewrite one_vertex. cbn [Nat.eqb Nat.sub].
  pose proof (uniform_int_range E 0 0 r (Nat.le_refl 0)) as Hr.
  destruct (uniform_int E 0 0 r) as [current r1]. cbn [fst] in Hr.
  assert (current = 0%nat) as -> by lia.
  cbn [construct_steps front app].
  fold loop_length. now destruct (Dbl.isfinite loop_length).
Qed.

Lemma UpdateBest_loop_first :
  Dbl.isfinite loop_length = true -> UpdateBest g loop_path no_result = loop_result.
Proof.
  intros Hfin. unfold UpdateBest. cbn [path path_length loop_path is_nil].
  rewrite Hfin. cbn [negb orb best_paths no_result is_nil].
  now rewrite CanonicalizeTour_loop.
Qed.

Lemma UpdateBest_loop_again :
  Dbl.isfinite loop_length = true -> UpdateBest g loop_path loop_result = loop_result.
Proof.
  intros Hfin. unfold UpdateBest. cbn [path path_length loop_path is_nil].
  rewrite Hfin. cbn [negb orb best_paths best_length best_paths_labels loop_result is_nil].
  rewrite CanonicalizeTour_loop.
  destruct (loop_length + 1e-9 <? loop_length); [reflexivity|].
  destruct (AreEqual loop_length loop_length); [|reflexivity].
  rewrite bool_decide_eq_true_2; [reflexivity | apply list_elem_of_here].
Qed.

Lemma ants_loop_stays params pheromone count r delta :
  Dbl.isfinite loop_length = true ->
  snd (ants_loop pow E g params pheromone count (r, delta, loop_result)) = loop_result.
Proof.
  intros Hfin. revert r delta.
  induction count as [|count IH]; intros r delta; [reflexivity|].
  cbn [ants_loop].
  pose proof (ConstructSolution_loop params pheromone r) as HC.
  destruct (ConstructSolution pow E g params pheromone r) as [p r'].
  cbn [fst] in HC. rewrite Hfin in HC. subst p.
  cbn [is_nil path loop_path]. rewrite UpdateBest_loop_again by assumption.
  apply IH.
Qed.

Lemma ants_loop_finds params pheromone count r delta :
  Dbl.isfinite loop_length = true ->
  snd (ants_loop pow E g params pheromone (S count) (r, delta, no_result)) = loop_result.
Proof.
  intros Hfin. cbn [ants_loop].
  pose proof (ConstructSolution_loop params pheromone r) as HC.
  destruct (ConstructSolution pow E g params pheromone r) as [p r'].
  cbn [fst] in HC. rewrite Hfin in HC. subst p.
  cbn [is_nil path loop_path]. rewrite UpdateBest_loop_first by assumption.
  now apply ants_loop_stays.
Qed.

Lemma ants_loop_dead params pheromone count r delta result :
  Dbl.isfinite loop_length = false ->
  snd (ants_loop pow E g params pheromone count (r, delta, result)) = result.
Proof.
  intros Hfin. revert r delta.
  induction count as [|count IH]; intros r delta; [reflexivity|].
  cbn [ants_loop].
  pose proof (ConstructSolution_loop params pheromone r) as HC.
  destruct (ConstructSolution pow E g params pheromone r) as [p r'].
  cbn [fst] in HC. rewrite Hfin in HC. subst p.
  cbn [is_nil path dead_end]. apply IH.
Qed.

Lemma sequential_loop_one_vertex params count :
  snd (sequential_loop pow E g params (S count))
  = if Dbl.isfinite loop_length
    then (if Nat.eqb (ants params) 0 then no_result else loop_result)
    else no_result.
Proof.
  induction count as [|count IH].
  - cbn [sequential_loop sequential_iteration].
    destruct (Dbl.isfinite loop_length) eqn:Hfin.
    + destruct (ants params) as [|a] eqn:Ha.
      * reflexivity.
      * pose proof (ants_loop_finds params (InitialPheromone g) a
                      (mt19937 E (seed params)) (zero_matrix g) Hfin) as H.
        destruct (ants_loop pow E g params _ (S a) _) as [[r' d'] res'].
        exact H.
    + pose proof (ants_loop_dead params (InitialPheromone g) (ants params)
                    (mt19937 E (seed params)) (zero_matrix g) no_result Hfin) as H.
      destruct (ants_loop pow E g params _ (ants params) _) as [[r' d'] res'].
      exact H.
  - change (sequential_loop pow E g params (S (S count)))
      with (sequential_iteration pow E g params (sequential_loop pow E g params (S count))).
    destruct (sequential_loop pow E g params (S count)) as [[ph r] res].
    cbn [snd] in IH. cbn [sequential_iteration].
    destruct (Dbl.isfinite loop_length) eqn:Hfin.
    + destruct (ants params) as [|a] eqn:Ha.
      * cbn [ants_loop snd]. exact IH.
      * rewrite <- Ha. subst res. rewrite Ha.
        pose proof (ants_loop_stays params ph (S a) r (zero_matrix g) Hfin) as H.
        destruct (ants_loop pow E g params ph (S a) _) as [[r' d'] res'].
        exact H.
    + subst res.
      pose proof (ants_loop_dead params ph (ants params) r (zero_matrix g) no_result Hfin) as H.
      destruct (ants_loop pow E g params ph (ants params) _) as [[r' d'] res'].
      exact H.
Qed.

(** The parallel runner. *)

Lemma worker_loop_copies params pheromone count r ld tbl tbp :
  Dbl.isfinite loop_length = true ->
  Forall (eq loop_path) tbp ->
  Forall (eq loop_path) (snd (worker_loop pow E g params pheromone count (r, ld, tbl, tbp)))
  /\ (tbp <> [] ->
      snd (worker_loop pow E g params pheromone count (r, ld, tbl, tbp)) <> []).
Proof.
  intros Hfin. revert r ld tbl tbp.
  induction count as [|count IH]; intros r ld tbl tbp Hall; [now split|].
  cbn [worker_loop].
  pose proof (ConstructSolution_loop params pheromone r) as HC.
  destruct (ConstructSolution pow E g params pheromone r) as [p r'].
  cbn [fst] in HC. rewrite Hfin in HC. subst p.
  cbn [is_nil path path_length loop_path].
  destruct (loop_length + 1e-9 <? tbl).
  - destruct (IH r' (DepositPheromone loop_path (q params) ld) loop_length [loop_path])
      as [H1 H2]; [repeat constructor|].
    split; [exact H1 | intros _; now apply H2].
  - destruct (AreEqual loop_length tbl).
    + destruct (IH r' (DepositPheromone loop_path (q params) ld) tbl (tbp ++ [loop_path]))
        as [H1 H2]; [apply Forall_app; split; [assumption | repeat constructor]|].
      split; [exact H1 | intros _; apply H2; now destruct tbp].
    + now apply IH.
Qed.

Lemma worker_loop_first params pheromone count r ld :
  Dbl.isfinite loop_length = true ->
  (loop_length + 1e-9 <? Dbl.kInfinity) = true ->
  snd (worker_loop pow E g params pheromone (S count) (r, ld, Dbl.kInfinity, [])) <> [].
Proof.
  intros Hfin Hlt. cbn [worker_loop].
  pose proof (ConstructSolution_loop params pheromone r) as HC.
  destruct (ConstructSolution pow E g params pheromone r) as [p r'].
  cbn [fst] in HC. rewrite Hfin in HC. subst p.
  cbn [is_nil path path_length loop_path]. rewrite Hlt.
  apply worker_loop_copies; [assumption | repeat constructor | discriminate].
Qed.

Lemma worker_loop_dead params pheromone count r ld tbl tbp :
  Dbl.isfinite loop_length = false ->
  snd (worker_loop pow E g params pheromone count (r, ld, tbl, tbp)) = tbp.
Proof.
  intros Hfin. revert r.
  induction count as [|count IH]; intros r; [reflexivity|].
  cbn [worker_loop].
  pose proof (ConstructSolution_loop params pheromone r) as HC.
  destruct (ConstructSolution pow E g params pheromone r) as [p r'].
  cbn [fst] in HC. rewrite Hfin in HC. subst p.
  cbn [is_nil path dead_end]. apply IH.
Qed.

Lemma worker_paths params T pheromone iteration t :
  snd (worker pow E g params T pheromone iteration t)
  = if Nat.eqb (ants params / T + (if Nat.ltb t (ants params mod T) then 1 else 0)) 0
    then []
    else snd (worker_loop pow E g params pheromone
                (ants params / T + (if Nat.ltb t (ants params mod T) then 1 else 0))
                (mt19937 E (worker_seed params t iteration), zero_matrix g, Dbl.kInfinity, [])).
Proof.
  unfold worker.
  destruct (Nat.eqb _ 0); [reflexivity|].
  now destruct (worker_loop pow E g params pheromone _ _) as [[[r ld] tbl] tbp].
Qed.

Lemma first_worker_has_ants (a T : nat) :
  (1 <= a)%nat -> (1 <= T)%nat ->
  (1 <= a / T + (if Nat.ltb 0 (a mod T) then 1 else 0))%nat.
Proof.
  intros Ha HT.
  pose proof (Nat.div_mod_eq a T) as Hdm.
  destruct (Nat.ltb 0 (a mod T)) eqn:Hlt; [lia|].
  apply Nat.ltb_ge in Hlt.
  destruct (a / T)%nat; [|lia].
  rewrite Nat.mul_0_r in Hdm. lia.
Qed.

Lemma merge_worker_stays tbp :
  Dbl.isfinite loop_length = true ->
  Forall (eq loop_path) tbp -> merge_worker g loop_result tbp = loop_result.
Proof.
  intros Hfin Hall. unfold merge_worker.
  induction Hall as [|p tbp <- _ IH]; [reflexivity|].
  cbn [foldl]. now rewrite UpdateBest_loop_again.
Qed.

Lemma merge_worker_finds tbp :
  Dbl.isfinite loop_length = true ->
  Forall (eq loop_path) tbp -> tbp <> [] -> merge_worker g no_result tbp = loop_result.
Proof.
  intros Hfin Hall Hne.
  destruct Hall as [|p tbp <- Hall]; [congruence|].
  unfold merge_worker. cbn [foldl]. rewrite UpdateBest_loop_first by assumption.
  now apply merge_worker_stays.
Qed.

(** The critical sections of one iteration, entered in [order]. *)
Definition merge_in_order (locals : list (matrix * list AntPath)) (result : TourResult)
    (order : list nat) : TourResult :=
  foldl (fun res t =>
           match locals !! t with
           | Some (_, thread_best_paths) => merge_worker g res thread_best_paths
           | None => res
           end) result order.

Lemma merge_in_order_stays locals order :
  Dbl.isfinite loop_length = true ->
  Forall (fun l => Forall (eq loop_path) (snd l)) locals ->
  merge_in_order locals loop_result order = loop_result.
Proof.
  intros Hfin Hall. unfold merge_in_order.
  induction order as [|t order IH]; [reflexivity|].
  cbn [foldl].
  destruct (locals !! t) as [[ld tbp]|] eqn:Ht; [|exact IH].
  rewrite merge_worker_stays; [exact IH | assumption |].
  rewrite Forall_forall in Hall.
  apply (Hall (ld, tbp)). eapply list_elem_of_lookup_2. exact Ht.
Qed.

Lemma merge_in_order_finds locals order t ld tbp :
  Dbl.isfinite loop_length = true ->
  Forall (fun l => Forall (eq loop_path) (snd l)) locals ->
  locals !! t = Some (ld, tbp) -> tbp <> [] -> In t order ->
  merge_in_order locals no_result order = loop_result.
Proof.
  intros Hfin Hall Ht Hne Hin.
  induction order as [|t' order IH]; [destruct Hin|].
  unfold merge_in_order. cbn [foldl].
  destruct (locals !! t') as [[ld' tbp']|] eqn:Ht'.
  - assert (Hall' : Forall (eq loop_path) tbp').
    { rewrite Forall_forall in Hall.
      apply (Hall (ld', tbp')). eapply list_elem_of_lookup_2. exact Ht'. }
    destruct tbp' as [|p' tbp'].
    + cbn [merge_worker foldl].
      destruct Hin as [-> | Hin]; [congruence | now apply IH].
    + rewrite merge_worker_finds by (assumption || discriminate).
      now apply merge_in_order_stays.
  - destruct Hin as [-> | Hin]; [congruence | now apply IH].
Qed.

Lemma parallel_loop_one_vertex params T schedule count :
  (1 <= ants params)%nat -> (1 <= T)%nat ->
  (forall i, schedule i ≡ₚ seq 0 T) ->
  snd (parallel_loop pow E g params T schedule (S count))
  = if Dbl.isfinite loop_length && (loop_length + 1e-9 <? Dbl.kInfinity)
    then loop_result
    else if Dbl.isfinite loop_length
         then snd (parallel_loop pow E g params T schedule (S count))
         else no_result.
Proof.
  intros Hants HT Hsched.
  destruct (Dbl.isfinite loop_length) eqn:Hfin; cbn [andb].
  - destruct (loop_length + 1e-9 <? Dbl.kInfinity) eqn:Hlt; [|reflexivity].
    assert (Hlocals : forall ph it,
      Forall (fun l => Forall (eq loop_path) (snd l))
             (map (worker pow E g params T ph it) (seq 0 T))).
    { intros ph it. apply Forall_forall. intros l Hl.
      apply list_elem_of_fmap in Hl as (t & -> & _).
      rewrite worker_paths. destruct (Nat.eqb _ 0); [constructor|].
      now apply worker_loop_copies. }
    assert (Hzero : forall ph it,
      exists ld tbp, map (worker pow E g params T ph it) (seq 0 T) !! 0%nat = Some (ld, tbp)
                     /\ tbp <> []).
    { intros ph it.
      exists (fst (worker pow E g params T ph it 0)), (snd (worker pow E g params T ph it 0)).
      split.
      - rewrite list_lookup_fmap, lookup_seq_lt by lia. cbn.
        now destruct (worker pow E g params T ph it 0).
      - rewrite worker_paths.
        pose proof (first_worker_has_ants (ants params) T Hants HT) as H1.
        destruct (ants params / T + (if Nat.ltb 0 (ants params mod T) then 1 else 0))%nat
          as [|a] eqn:Ha; [lia|].
        cbn [Nat.eqb]. now apply worker_loop_first. }
    assert (Hin : forall i, In 0%nat (schedule i)).
    { intros i. apply list_elem_of_In. rewrite (Hsched i). apply elem_of_seq. lia. }
    induction count as [|count IH].
    + cbn [parallel_loop parallel_iteration snd].
      destruct (Hzero (InitialPheromone g) 0%nat) as (ld & tbp & Hl & Hne).
      apply (merge_in_order_finds _ _ 0%nat ld tbp); auto.
    + change (parallel_loop pow E g params T schedule (S (S count)))
        with (parallel_iteration pow E g params T (schedule (S count)) (S count)
                (parallel_loop pow E g params T schedule (S count))).
      destruct (parallel_loop pow E g params T schedule (S count)) as [ph res].
      cbn [snd] in IH. subst res. cbn [parallel_iteration snd].
      now apply merge_in_order_stays.
  - assert (Hlocals : forall ph it l,
      In l (map (worker pow E g params T ph it) (seq 0 T)) -> snd l = []).
    { intros ph it l Hl. apply in_map_iff in Hl as (t & <- & _).
      rewrite worker_paths. destruct (Nat.eqb _ 0); [reflexivity|].
      now apply worker_loop_dead. }
    assert (Hmerge : forall ph it order res,
      merge_in_order (map (worker pow E g params T ph it) (seq 0 T)) res order = res).
    { intros ph it order res. unfold merge_in_order.
      induction order as [|t order IHo]; [reflexivity|].
      cbn [foldl].
      destruct (map (worker pow E g params T ph it) (seq 0 T) !! t) as [[ld tbp]|] eqn:Ht;
        [|exact IHo].
      assert (tbp = []) as ->.
      { apply (Hlocals ph it (ld, tbp)). apply list_elem_of_In.
        eapply list_elem_of_lookup_2. exact Ht. }
      exact IHo. }
    induction count as [|count IH].
    + cbn [parallel_loop parallel_iteration snd]. apply Hmerge.
    + change (parallel_loop pow E g params T schedule (S (S count)))
        with (parallel_iteration pow E g params T (schedule (S count)) (S count)
                (parallel_loop pow E g params T schedule (S count))).
      destruct (parallel_loop pow E g params T schedule (S count)) as [ph res].
      cbn [snd] in IH. subst res. cbn [parallel_iteration snd]. apply Hmerge.
Qed.

End OneVertex.

(** C1, as the code has it.  On a graph with one vertex every ant builds
    the closed walk [0, 0], whose length is [0 + Weight(0, 0)].  When that
    length is finite, both runners report it as [best_length] with
    [best_paths = [[0, 0]]] (ants and iterations at least 1; the parallel
    runner with any [T >= 1], whatever the order in which the workers take
    the lock, as long as its first comparison [length + 1e-9 < +inf]
    holds).  Only when that length is not finite do the runs end with
    [best_length = +inf] and no path. *)
Theorem one_vertex_runs (pow : float -> float -> float) (E : RandomEngine) (g : Graph)
    (params : AntColonyParameters) (T : nat) (schedule : nat -> list nat) :
  VertexCount g = 1%nat ->
  (1 <= ants params)%nat -> (1 <= iterations params)%nat -> (1 <= T)%nat ->
  (forall i, schedule i ≡ₚ seq 0 T) ->
  (Dbl.isfinite (loop_length g) = true ->
     RunSequential pow E g params = loop_result g
     /\ ((loop_length g + 1e-9 <? Dbl.kInfinity) = true ->
         RunParallel pow E g params T schedule = loop_result g))
  /\ (Dbl.isfinite (loop_length g) = false ->
      RunSequential pow E g params = no_result
      /\ RunParallel pow E g params T schedule = no_result).
Proof.
  intros Hone Hants Hiter HT Hsched.
  unfold RunSequential, RunParallel.
  destruct (iterations params) as [|k]; [lia|].
  destruct T as [|T']; [lia|]. cbn [Nat.eqb].
  rewrite (sequential_loop_one_vertex pow E g Hone params k).
  rewrite (parallel_loop_one_vertex pow E g Hone params (S T') schedule k Hants HT Hsched).
  destruct (ants params) as [|a]; [lia|]. cbn [Nat.eqb].
  split; intros Hfin; rewrite Hfin; cbn [andb].
  - split; [reflexivity|]. intros Hlt. now rewrite Hlt.
  - split; reflexivity.
Qed.

(** Both runs on one vertex whose closed walk has a finite length. *)
Lemma one_vertex_finite (pow : float -> float -> float) (E : RandomEngine) (g : Graph)
    (params : AntColonyParameters) (T : nat) (schedule : nat -> list nat) :
  VertexCount g = 1%nat ->
  (1 <= ants params)%nat -> (1 <= iterations params)%nat -> (1 <= T)%nat ->
  (forall i, schedule i ≡ₚ seq 0 T) ->
  Dbl.isfinite (loop_length g) = true ->
  (loop_length g + 1e-9 <? Dbl.kInfinity) = true ->
  RunSequential pow E g params = loop_result g
  /\ RunParallel pow E g params T schedule = loop_result g.
Proof.
  intros Hone Hants Hiter HT Hsched Hfin Hlt.
  unfold RunSequential, RunParallel.
  destruct (iterations params) as [|k]; [lia|].
  destruct T as [|T']; [lia|]. cbn [Nat.eqb].
  rewrite (sequential_loop_one_vertex pow E g Hone params k).
  rewrite (parallel_loop_one_vertex pow E g Hone params (S T') schedule k Hants HT Hsched).
  destruct (ants params) as [|a]; [lia|]. cbn [Nat.eqb].
  rewrite Hfin, Hlt. split; reflexivity.
Qed.

Definition self_loop_graph : Graph := parsed "A -> A".

Lemma one_vertex_runs_witness :
  RunSequential pow_model lcg_engine self_loop_graph default_params
  = loop_result self_loop_graph
  /\ RunParallel pow_model lcg_engine self_loop_graph default_params 3 (fun _ => seq 0 3)
     = loop_result self_loop_graph.
Proof.
  destruct (one_vertex_runs pow_model lcg_engine self_loop_graph default_params 3
              (fun _ => seq 0 3)) as [H _].
  - reflexivity.
  - cbn. lia.
  - cbn. lia.
  - lia.
  - intros i. reflexivity.
  - destruct (H eq_refl) as [Hs Hp]. split; [exact Hs | exact (Hp eq_refl)].
Defined.

(** C1 as stated fails: the graph parsed from the single line [A -> A]
    has one vertex, and both runners end with [best_length = 1] and the
    path [[0, 0]]. *)
Lemma one_vertex_counterexample :
  VertexCount self_loop_graph = 1%nat
  /\ RunSequential pow_model lcg_engine self_loop_graph default_params
     = {| best_length := 1; best_paths := [[0%nat; 0%nat]]; best_paths_labels := ["A->A"] |}
  /\ RunParallel pow_model lcg_engine self_loop_graph default_params 3 (fun _ => seq 0 3)
     = {| best_length := 1; best_paths := [[0%nat; 0%nat]]; best_paths_labels := ["A->A"] |}.
Proof.
  assert (Hone : VertexCount self_loop_graph = 1%nat) by (vm_compute; reflexivity).
  assert (Hres : loop_result self_loop_graph
                 = {| best_length := 1; best_paths := [[0%nat; 0%nat]];
                      best_paths_labels := ["A->A"] |}) by (vm_compute; reflexivity).
  split; [exact Hone|]. rewrite <- Hres.
  apply one_vertex_finite;
    [exact Hone | cbn; lia | cbn; lia | lia | intros i; reflexivity
    | vm_compute; reflexivity | vm_compute; reflexivity].
Qed.

(** ** Rotations and reversals of a cycle *)

Section Rotations.

Context {A : Type}.
Implicit Types c x : list A.

(** [rot k c]: [c] read from position [k] on, for [k <= length c]. *)
Definition rot (k : nat) (c : list A) : list A := drop k c ++ take k c.

(** [x] is a rotation of [c] or the reversal of one. *)
Definition turn_of (c x : list A) : Prop :=
  exists k, (k <= length c)%nat /\ (x = rot k c \/ x = reverse (rot k c)).


Lemma rot_0 c : rot 0 c = c.
Proof. unfold rot. cbn. apply app_nil_r. Qed.

Lemma rot_length c : rot (length c) c = c.
Proof. unfold rot. now rewrite drop_all, firstn_all. Qed.

Lemma rotate_rot k c : rotate k c = rot (k mod length c) c.
Proof. reflexivity. Qed.



Lemma turn_of_refl c : turn_of c c.
Proof. exists 0%nat. split; [lia | left; now rewrite rot_0]. Qed.






Lemma turn_of_Permutation c x : turn_of c x -> x ≡ₚ c.
Proof.
  intros (k & _ & Hx).
  assert (Hr : rot k c ≡ₚ c).
  { unfold rot. rewrite Permutation_app_comm. now rewrite take_drop. }
  destruct Hx as [-> | ->]; [exact Hr | now rewrite reverse_Permutation].
Qed.

End Rotations.

(** ** What the two loops of [build_key] read *)

Lemma forward_order_rot (n s : nat) :
  (s < n)%nat -> forward_order n s = rot s (seq 0 n).
Proof.
  intros Hs. unfold forward_order, rot.
  rewrite drop_seq, take_seq. apply list_eq. intros i.
  rewrite list_lookup_fmap.
  destruct (decide (i < n)%nat) as [Hi | Hi].
  - rewrite lookup_seq_lt by assumption. cbn.
    destruct (decide (i < n - s)%nat) as [Hi' | Hi'].
    + rewrite lookup_app_l by (rewrite length_seq; lia).
      rewrite lookup_seq_lt by lia. f_equal. rewrite Nat.mod_small; lia.
    + rewrite lookup_app_r by (rewrite length_seq; lia).
      rewrite length_seq, lookup_seq_lt by lia. f_equal.
      symmetry. apply (Nat.mod_unique _ _ 1%nat); lia.
  - rewrite lookup_seq_ge by lia. cbn. symmetry.
    apply lookup_ge_None. rewrite length_app, !length_seq. lia.
Qed.

Lemma reverse_order_down (n index count : nat) :
  (count <= index + 1)%nat ->
  reverse_order n index count = reverse (seq (index + 1 - count) count).
Proof.
  revert index. induction count as [|count IH]; intros index Hc; [reflexivity|].
  cbn [reverse_order]. rewrite seq_S, reverse_snoc.
  f_equal; [lia|].
  destruct count as [|count]; [reflexivity|].
  destruct index as [|index]; [lia|].
  cbn [Nat.eqb]. rewrite IH by lia. do 2 f_equal. lia.
Qed.

Lemma reverse_order_wrap (n index m : nat) :
  reverse_order n index (index + 1 + m)
  = reverse (seq 0 (index + 1)) ++ reverse_order n (n - 1) m.
Proof.
  induction index as [|index IH].
  - reflexivity.
  - replace (S index + 1 + m)%nat with (S (index + 1 + m)) by lia.
    cbn [reverse_order Nat.eqb].
    replace (S index - 1)%nat with index by lia.
    rewrite IH.
    replace (S index + 1)%nat with (S (index + 1)) by lia.
    rewrite seq_S, reverse_snoc. cbn [app]. f_equal. lia.
Qed.

Lemma reverse_order_rot (n s : nat) :
  (s < n)%nat -> reverse_order n s n = reverse (rot (S s) (seq 0 n)).
Proof.
  intros Hs. unfold rot. rewrite drop_seq, take_seq, reverse_app.
  replace n with (s + 1 + (n - s - 1))%nat at 2 by lia.
  rewrite reverse_order_wrap, reverse_order_down by lia.
  replace (S s `min` n)%nat with (s + 1)%nat by lia.
  replace (n - 1 + 1 - (n - s - 1))%nat with (0 + S s)%nat by lia.
  replace (n - s - 1)%nat with (n - S s)%nat by lia.
  reflexivity.
Qed.

Lemma map_cycle_at (c : list nat) : map (cycle_at c) (seq 0 (length c)) = c.
Proof.
  apply list_eq. intros i. rewrite list_lookup_fmap.
  destruct (decide (i < length c)%nat) as [Hi | Hi].
  - rewrite lookup_seq_lt by assumption. cbn. unfold cycle_at.
    destruct (lookup_lt_is_Some_2 c i Hi) as [v Hv]. now rewrite Hv.
  - rewrite lookup_seq_ge by lia. cbn. symmetry. apply lookup_ge_None. lia.
Qed.

Lemma map_rot {A B : Type} (f : A -> B) (k : nat) (l : list A) :
  map f (rot k l) = rot k (map f l).
Proof. unfold rot. now rewrite fmap_app, fmap_drop, fmap_take. Qed.

Lemma visit_forward (c : list nat) (s : nat) :
  (s < length c)%nat -> visit c s false = rot s c.
Proof.
  intros Hs. unfold visit.
  rewrite forward_order_rot by assumption.
  now rewrite map_rot, map_cycle_at.
Qed.

Lemma visit_reverse (c : list nat) (s : nat) :
  (s < length c)%nat -> visit c s true = reverse (rot (S s) c).
Proof.
  intros Hs. unfold visit.
  rewrite Nat.mod_small by assumption.
  rewrite reverse_order_rot by assumption.
  rewrite fmap_reverse. f_equal.
  now rewrite map_rot, map_cycle_at.
Qed.

Lemma visit_turn_of (c : list nat) (s : nat) (r : bool) :
  (s < length c)%nat -> turn_of c (visit c s r).
Proof.
  intros Hs. destruct r.
  - exists (S s). split; [lia | right; now apply visit_reverse].
  - exists s. split; [lia | left; now apply visit_forward].
Qed.

Lemma turn_of_visit (c x : list nat) :
  c <> [] -> turn_of c x -> exists s r, (s < length c)%nat /\ x = visit c s r.
Proof.
  intros Hne (k & Hk & Hx).
  assert (Hn : (0 < length c)%nat) by (destruct c; [congruence | cbn; lia]).
  destruct Hx as [-> | ->].
  - destruct (decide (k = length c)) as [-> | Hk'].
    + exists 0%nat, false. split; [lia|].
      now rewrite visit_forward, rot_0, rot_length by lia.
    + exists k, false. split; [lia|]. now rewrite visit_forward by lia.
  - destruct k as [|k].
    + exists (length c - 1)%nat, true. split; [lia|].
      rewrite visit_reverse by lia.
      replace (S (length c - 1)) with (length c) by lia.
      now rewrite rot_0, rot_length.
    + exists k, true. split; [lia|]. now rewrite visit_reverse by lia.
Qed.

(** ** The key of a visit *)

Module Key.

Lemma append_cons (ch : ascii) (a b : string) : String ch a +:+ b = String ch (a +:+ b).
Proof. reflexivity. Qed.

Lemma append_nil_l (a : string) : EmptyString +:+ a = a.
Proof. reflexivity. Qed.

Lemma append_assoc (a b c : string) : (a +:+ b) +:+ c = a +:+ (b +:+ c).
Proof.
  induction a as [|ch a IH]; [reflexivity | rewrite !append_cons; f_equal; exact IH].
Qed.

Lemma append_nil_r (a : string) : a +:+ EmptyString = a.
Proof.
  induction a as [|ch a IH]; [reflexivity | rewrite append_cons; f_equal; exact IH].
Qed.


(** The separator [build_key] puts between labels. *)
Definition separator : ascii := Ascii.ascii_of_nat 62.

Fixpoint has_separator (s : string) : bool :=
  match s with
  | EmptyString => false
  | String ch s' => Ascii.eqb ch separator || has_separator s'
  end.

(** A label that is not empty and does not contain the separator. *)
Definition plain_label (l : string) : bool := negb (is_empty l) && negb (has_separator l).

(** The labels of [g] are pairwise distinct and plain. *)
Definition plain_labels (g : Graph) : Prop :=
  NoDup (index_to_label_ g) /\ forallb plain_label (index_to_label_ g) = true.

Definition key_of (g : Graph) (x : list nat) : string := foldl (append g) EmptyString x.






Section Injective.

Variable g : Graph.
Hypothesis labels_plain : plain_labels g.

Lemma Label_plain v :
  (v < VertexCount g)%nat ->
  is_empty (Label g v) = false /\ has_separator (Label g v) = false.
Proof.
  intros Hv. unfold Label.
  destruct (lookup_lt_is_Some_2 (index_to_label_ g) v Hv) as [l Hl]. rewrite Hl.
  destruct labels_plain as [_ Hall].
  rewrite forallb_forall in Hall.
  assert (Hp : plain_label l = true).
  { apply Hall. apply list_elem_of_In. eapply list_elem_of_lookup_2. exact Hl. }
  unfold plain_label in Hp. apply andb_true_iff in Hp as [H1 H2].
  now rewrite negb_true_iff in H1, H2.
Qed.

Lemma Label_inj v w :
  (v < VertexCount g)%nat -> (w < VertexCount g)%nat -> Label g v = Label g w -> v = w.
Proof.
  intros Hv Hw. unfold Label.
  destruct (lookup_lt_is_Some_2 (index_to_label_ g) v Hv) as [l Hl].
  destruct (lookup_lt_is_Some_2 (index_to_label_ g) w Hw) as [l' Hl'].
  rewrite Hl, Hl'. intros ->.
  destruct labels_plain as [Hnd _].
  eapply NoDup_lookup; eassumption.
Qed.




End Injective.

End Key.

(** ** C6: the canonical form of a cycle *)

Section Canonical.

Variable g : Graph.

(** The loop over [shift], and the visit it settles on. *)
Definition select (c : list nat) : string * nat * bool :=
  foldl (try_shift g c) (build_key g c 0 false, 0%nat, false) (seq 0 (length c)).

Definition canon_cycle (c : list nat) : list nat :=
  let '(_, best_shift, best_reverse) := select c in visit c best_shift best_reverse.

(** [c] followed by its first element. *)
Definition close (c : list nat) : list nat := c ++ front c.

Definition good (c : list nat) (st : string * nat * bool) : Prop :=
  (snd (fst st) < length c)%nat /\ fst (fst st) = build_key g c (snd (fst st)) (snd st).

Lemma ltb_asym (a b : string) : String.ltb a b = true -> String.ltb b a = false.
Proof. intros H. apply StrOrd.ltb_false_cases. now right. Qed.

Lemma try_shift_spec (c : list nat) (st : string * nat * bool) (x : nat) :
  (x < length c)%nat -> good c st ->
  good c (try_shift g c st x)
  /\ String.ltb (fst (fst st)) (fst (fst (try_shift g c st x))) = false
  /\ forall r, String.ltb (build_key g c x r) (fst (fst (try_shift g c st x))) = false.
Proof.
  intros Hx [Hs Hk]. destruct st as [[k s] r0]. cbn [fst snd] in *.
  unfold try_shift. cbn [fst snd].
  destruct (String.ltb (build_key g c x false) k) eqn:H1; cbn [fst snd].
  - destruct (String.ltb (build_key g c x true) (build_key g c x false)) eqn:H2;
      cbn [fst snd]; (split; [now split|]); split.
    + apply ltb_asym. eapply StrOrd.ltb_trans; eassumption.
    + intros [|]; [apply StrOrd.ltb_irrefl | now apply ltb_asym].
    + now apply ltb_asym.
    + intros [|]; [assumption | apply StrOrd.ltb_irrefl].
  - destruct (String.ltb (build_key g c x true) k) eqn:H2;
      cbn [fst snd]; (split; [now split|]); split.
    + now apply ltb_asym.
    + intros [|]; [apply StrOrd.ltb_irrefl|].
      apply ltb_asym. eapply StrOrd.lt_le_trans; eassumption.
    + apply StrOrd.ltb_irrefl.
    + intros [|]; assumption.
Qed.

Lemma foldl_try_shift (c : list nat) (l : list nat) (st : string * nat * bool) :
  Forall (fun x => x < length c)%nat l -> good c st ->
  good c (foldl (try_shift g c) st l)
  /\ String.ltb (fst (fst st)) (fst (fst (foldl (try_shift g c) st l))) = false
  /\ forall x r, In x l ->
       String.ltb (build_key g c x r) (fst (fst (foldl (try_shift g c) st l))) = false.
Proof.
  revert st. induction l as [|x l IH]; intros st Hl Hst.
  - cbn. repeat split; [apply Hst | apply Hst | apply StrOrd.ltb_irrefl | intros ? ? []].
  - inversion Hl as [|? ? Hx Hl']; subst.
    destruct (try_shift_spec c st x Hx Hst) as (Hg1 & Hle1 & Hmin1).
    destruct (IH (try_shift g c st x) Hl' Hg1) as (Hg & Hle & Hmin).
    cbn [foldl]. split; [exact Hg|]. split.
    + eapply StrOrd.le_trans; eassumption.
    + intros y r [<- | Hy]; [|now apply Hmin].
      eapply StrOrd.le_trans; [exact Hle | apply Hmin1].
Qed.

Lemma select_spec (c : list nat) :
  c <> [] ->
  good c (select c)
  /\ forall x r, (x < length c)%nat ->
       String.ltb (build_key g c x r) (fst (fst (select c))) = false.
Proof.
  intros Hne.
  assert (Hn : (0 < length c)%nat) by (destruct c; [congruence | cbn; lia]).
  destruct (foldl_try_shift c (seq 0 (length c)) (build_key g c 0 false, 0%nat, false))
    as (Hg & _ & Hmin).
  - apply Forall_forall. intros x Hx. apply elem_of_seq in Hx. lia.
  - split; [exact Hn | reflexivity].
  - split; [exact Hg|]. intros x r Hx. apply Hmin. apply in_seq. lia.
Qed.

Lemma canon_cycle_visit (c : list nat) :
  c <> [] ->
  exists s r, (s < length c)%nat /\ canon_cycle c = visit c s r
              /\ fst (fst (select c)) = Key.key_of g (visit c s r).
Proof.
  intros Hne. destruct (select_spec c Hne) as [[Hs Hk] _].
  unfold canon_cycle. destruct (select c) as [[k s] r]. cbn [fst snd] in *.
  exists s, r. repeat split; assumption.
Qed.

Lemma canon_cycle_turn_of (c : list nat) : c <> [] -> turn_of c (canon_cycle c).
Proof.
  intros Hne. destruct (canon_cycle_visit c Hne) as (s & r & Hs & -> & _).
  now apply visit_turn_of.
Qed.

Lemma canon_cycle_least (c x : list nat) :
  c <> [] -> turn_of c x ->
  String.ltb (Key.key_of g x) (Key.key_of g (canon_cycle c)) = false.
Proof.
  intros Hne Hx.
  destruct (turn_of_visit c x Hne Hx) as (s & r & Hs & ->).
  destruct (canon_cycle_visit c Hne) as (s' & r' & Hs' & -> & Hk).
  rewrite <- Hk. now apply select_spec.
Qed.

Hypothesis labels_plain : Key.plain_labels g.




End Canonical.

Lemma close_length (c : list nat) : c <> [] -> length (close c) = S (length c).
Proof. destruct c; [congruence|]. intros _. unfold close. cbn. rewrite length_app. cbn. lia. Qed.

Lemma CanonicalizeTour_close (g : Graph) (c : list nat) :
  c <> [] -> CanonicalizeTour g (close c) = close (canon_cycle g c).
Proof.
  intros Hne. unfold CanonicalizeTour.
  rewrite close_length by assumption.
  destruct c as [|v c]; [congruence|].
  assert (Hleb : Nat.leb (S (length (v :: c))) 1 = false) by reflexivity.
  rewrite Hleb. clear Hleb.
  assert (Hlast : last (close (v :: c)) = Some v) by apply last_snoc.
  assert (Hhead : head (close (v :: c)) = Some v) by reflexivity.
  assert (Hrm : removelast (close (v :: c)) = v :: c) by apply removelast_last.
  rewrite Hlast, Hhead, Hrm.
  rewrite bool_decide_eq_true_2 by reflexivity.
  unfold canon_cycle, select.
  destruct (foldl (try_shift g (v :: c)) _ _) as [[k s] r]. reflexivity.
Qed.


(** The triangle of the first scenario. *)
Definition triangle : Graph := parsed "A -> B [weight=1];
B -> A [weight=1];
A -> C [weight=5];
C -> A [weight=5];
B -> C [weight=2];
C -> B [weight=2];".

Lemma triangle_plain : Key.plain_labels triangle.
Proof.
  split; [|reflexivity].
  apply (bool_decide_unpack _). vm_compute. exact I.
Qed.




(** ** Facts about doubles *)

Module DblFacts.

Lemma Prim2SF_zero : Prim2SF 0 = S754_zero false.
Proof. reflexivity. Qed.

Lemma Prim2SF_infinity : Prim2SF infinity = S754_infinity false.
Proof. reflexivity. Qed.

(** A finite double is a zero or has a mantissa and an exponent. *)
Lemma finite_cases (x : float) :
  Dbl.isfinite x = true ->
  (exists s, Prim2SF x = S754_zero s) \/ (exists s m e, Prim2SF x = S754_finite s m e).
Proof.
  unfold Dbl.isfinite, is_finite, is_nan, is_infinity.
  rewrite !FloatAxioms.eqb_spec, abs_spec, Prim2SF_infinity.
  destruct (Prim2SF x) as [s | s | | s m e]; cbn; try discriminate; eauto.
  now destruct s.
Qed.

Lemma sub_self (x : float) : Dbl.isfinite x = true -> x - x = 0.
Proof.
  intros Hfin. apply Prim2SF_inj. rewrite sub_spec, Prim2SF_zero.
  destruct (finite_cases x Hfin) as [[s ->] | (s & m & e & ->)].
  - now destruct s.
  - unfold SF64sub, SFsub. rewrite Z.sub_diag. reflexivity.
Qed.

Lemma AreEqual_refl (x : float) : Dbl.isfinite x = true -> AreEqual x x = true.
Proof.
  intros Hfin. unfold AreEqual, Dbl.fabs. now rewrite sub_self.
Qed.

(** A finite double times [+0] is a zero, which is not above [0]. *)
Lemma mul_zero_not_positive (t : float) :
  Dbl.isfinite t = true -> (t * 0 <=? 0) = true.
Proof.
  intros Hfin. rewrite leb_spec, mul_spec, Prim2SF_zero.
  destruct (finite_cases t Hfin) as [[s ->] | (s & m & e & ->)]; reflexivity.
Qed.

(** [0 / x] for a finite [x] other than zero. *)
Lemma zero_div (x : float) :
  Dbl.isfinite x = true -> (x =? 0) = false -> 0 / x = 0 \/ 0 / x = -0.
Proof.
  intros Hfin Hnz.
  rewrite FloatAxioms.eqb_spec, Prim2SF_zero in Hnz.
  destruct (finite_cases x Hfin) as [[s Hx] | (s & m & e & Hx)].
  - rewrite Hx in Hnz. discriminate.
  - destruct s; [right | left]; apply Prim2SF_inj; rewrite div_spec, Hx; reflexivity.
Qed.

End DblFacts.

(** ** What an ant builds *)

Lemma NoDup_below_Permutation (n : nat) (p : list nat) :
  NoDup p -> Forall (fun v => v < n)%nat p -> length p = n -> p ≡ₚ seq 0 n.
Proof.
  intros Hnd Hlt Hlen.
  apply submseteq_length_Permutation.
  - apply NoDup_submseteq; [assumption|].
    intros x Hx. apply elem_of_seq. rewrite Forall_forall in Hlt.
    specialize (Hlt x Hx). lia.
  - rewrite length_seq. lia.
Qed.

(** A closed tour through every vertex of a graph with [n] vertices. *)
Definition hamiltonian (n : nat) (t : list nat) : Prop :=
  exists c, c <> [] /\ c ≡ₚ seq 0 n /\ t = close c.

Section Construction.

Variable pow : float -> float -> float.
Variable E : RandomEngine.
Variable g : Graph.

Definition scan_ok (visited : list bool) (acc : list nat * list float * float) : Prop :=
  length (fst (fst acc)) = length (snd (fst acc))
  /\ Forall (fun v => (v < VertexCount g)%nat /\ default false (visited !! v) = false)
            (fst (fst acc)).

Lemma scan_step_ok params pheromone visited current acc next :
  (next < VertexCount g)%nat -> scan_ok visited acc ->
  scan_ok visited (scan_step pow g params pheromone visited current acc next).
Proof.
  intros Hnext [Hlen Hall]. destruct acc as [[cands probs] sum]. cbn [fst snd] in *.
  unfold scan_step.
  destruct (default false (visited !! next)) eqn:Hv; [now split|].
  match goal with |- context [if ?b then _ else _] => destruct b end; [now split|].
  split; cbn [fst snd].
  - rewrite !length_app. cbn. lia.
  - apply Forall_app. split; [assumption|]. repeat constructor; assumption.
Qed.

Lemma scan_candidates_ok params pheromone visited current :
  scan_ok visited (scan_candidates pow g params pheromone visited current).
Proof.
  unfold scan_candidates.
  assert (H : forall l acc,
             Forall (fun v => v < VertexCount g)%nat l -> scan_ok visited acc ->
             scan_ok visited
               (foldl (scan_step pow g params pheromone visited current) acc l)).
  { induction l as [|x l IH]; intros acc Hl Hacc; [assumption|].
    inversion Hl; subst. cbn [foldl]. apply IH; [assumption|].
    now apply scan_step_ok. }
  apply H.
  - apply Forall_forall. intros x Hx. apply elem_of_seq in Hx. lia.
  - split; [reflexivity | constructor].
Qed.

Lemma pick_bound choice cumulative index rest :
  (pick choice cumulative index rest <= index + length rest)%nat.
Proof.
  revert cumulative index. induction rest as [|p rest IH]; intros cumulative index.
  - cbn. lia.
  - cbn [pick length]. destruct (cumulative <? choice).
    + specialize (IH (cumulative + p) (S index)). lia.
    + lia.
Qed.

Lemma pick_index_bound choice probabilities :
  probabilities <> [] -> (pick_index choice probabilities < length probabilities)%nat.
Proof.
  destruct probabilities as [|p0 rest]; [congruence|]. intros _.
  cbn [pick_index length]. pose proof (pick_bound choice p0 0 rest). lia.
Qed.

(** [visited] marks exactly what [path] holds so far. *)
Definition tracked (visited : list bool) (path : list nat) : Prop :=
  length visited = VertexCount g
  /\ NoDup path
  /\ Forall (fun v => (v < VertexCount g)%nat /\ visited !! v = Some true) path.

Lemma construct_steps_ok params pheromone steps current visited path r p r' :
  tracked visited path ->
  construct_steps pow E g params pheromone steps current visited path r = (Some p, r') ->
  NoDup p
  /\ Forall (fun v => v < VertexCount g)%nat p
  /\ length p = (length path + steps)%nat
  /\ exists more, p = path ++ more.
Proof.
  revert current visited path r.
  induction steps as [|steps IH]; intros current visited path r Htr Hrun.
  - cbn in Hrun. injection Hrun as <- <-.
    destruct Htr as (_ & Hnd & Hall).
    repeat split; [assumption | | lia | exists []; now rewrite app_nil_r].
    eapply Forall_impl; [exact Hall | now intros v [Hv _]].
  - cbn [construct_steps] in Hrun.
    pose proof (scan_candidates_ok params pheromone visited current) as [Hlen Hcands].
    destruct (scan_candidates pow g params pheromone visited current)
      as [[cands probs] sum].
    cbn [fst snd] in Hlen, Hcands.
    destruct cands as [|c0 cands]; [discriminate|].
    destruct (uniform_real E 0 sum r) as [choice r1].
    set (index := pick_index choice probs) in *.
    assert (Hindex : (index < length (c0 :: cands))%nat).
    { rewrite Hlen. apply pick_index_bound. destruct probs; [discriminate | congruence]. }
    destruct (lookup_lt_is_Some_2 _ _ Hindex) as [v Hv].
    rewrite Hv in Hrun. cbn [default] in Hrun.
    assert (Hin : v ∈ c0 :: cands) by (eapply list_elem_of_lookup_2; exact Hv).
    rewrite Forall_forall in Hcands. destruct (Hcands v Hin) as [Hvn Hvis].
    destruct Htr as (Hvlen & Hnd & Hall).
    assert (Hfresh : v ∉ path).
    { intros Hvp. rewrite Forall_forall in Hall. destruct (Hall v Hvp) as [_ Hsome].
      rewrite Hsome in Hvis. discriminate. }
    assert (Htr' : tracked (<[ v := true ]> visited) (path ++ [v])).
    { split; [now rewrite length_insert|]. split.
      - apply NoDup_app. repeat split; [assumption | | apply NoDup_singleton].
        intros x Hx Hx'. apply list_elem_of_singleton in Hx'. now subst.
      - apply Forall_app. split.
        + eapply Forall_impl; [exact Hall|]. intros w [Hw Hws]. split; [assumption|].
          destruct (decide (w = v)) as [-> | Hne].
          * apply list_lookup_insert_eq. lia.
          * now rewrite list_lookup_insert_ne.
        + repeat constructor; [assumption|]. apply list_lookup_insert_eq. lia. }
    destruct (IH _ _ _ _ Htr' Hrun) as (Hp1 & Hp2 & Hp3 & more & Hp4).
    repeat split; [assumption | assumption | |].
    + rewrite Hp3, length_app. cbn. lia.
    + exists ([v] ++ more). now rewrite app_assoc.
Qed.

(** An ant either gives up or returns a closed tour through every vertex,
    together with the finite sum of its edge weights. *)
Lemma ConstructSolution_valid params pheromone r :
  fst (ConstructSolution pow E g params pheromone r) = dead_end
  \/ (hamiltonian (VertexCount g) (path (fst (ConstructSolution pow E g params pheromone r)))
      /\ path_length (fst (ConstructSolution pow E g params pheromone r))
         = ComputePathLength g (path (fst (ConstructSolution pow E g params pheromone r)))
      /\ Dbl.isfinite (path_length (fst (ConstructSolution pow E g params pheromone r)))
         = true).
Proof.
  unfold ConstructSolution.
  destruct (Nat.eqb (VertexCount g) 0) eqn:Hn; [now left|].
  apply Nat.eqb_neq in Hn.
  pose proof (uniform_int_range E 0 (VertexCount g - 1) r (Nat.le_0_l _)) as Hr.
  destruct (uniform_int E 0 (VertexCount g - 1) r) as [current r1]. cbn [fst] in Hr.
  destruct (construct_steps pow E g params pheromone (VertexCount g - 1) current
              (<[ current := true ]> (replicate (VertexCount g) false)) [current] r1)
    as [[p|] r2] eqn:Hrun; [|now left].
  destruct (Dbl.isfinite (ComputePathLength g (p ++ front p))) eqn:Hfin; [|now left].
  right. cbn [fst path path_length].
  assert (Htr : tracked (<[ current := true ]> (replicate (VertexCount g) false)) [current]).
  { split; [now rewrite length_insert, length_replicate|].
    split; [apply NoDup_singleton|].
    repeat constructor; [lia|].
    apply list_lookup_insert_eq. rewrite length_replicate. lia. }
  destruct (construct_steps_ok _ _ _ _ _ _ _ _ _ Htr Hrun) as (Hnd & Hlt & Hlen & more & Hp).
  cbn [length] in Hlen.
  split; [|now split].
  exists p. split; [subst p; discriminate|]. split; [|reflexivity].
  apply NoDup_below_Permutation; [assumption | assumption | lia].
Qed.

End Construction.

(** ** C8: the best set *)

Section BestSet.

Variable pow : float -> float -> float.
Variable E : RandomEngine.
Variable g : Graph.

(** What [ConstructSolution] returns when it does not give up. *)
Definition valid_ant (p : AntPath) : Prop :=
  hamiltonian (VertexCount g) (path p)
  /\ path_length p = ComputePathLength g (path p)
  /\ Dbl.isfinite (path_length p) = true.

(** A stored tour: closed, of [N + 1] elements, through every vertex once,
    and the canonical form of an ant's tour whose length is within the
    tolerance of [best]. *)
Definition stored_ok (best : float) (t : list nat) : Prop :=
  head t = last t
  /\ length t = S (VertexCount g)
  /\ removelast t ≡ₚ seq 0 (VertexCount g)
  /\ exists a, hamiltonian (VertexCount g) a
               /\ t = CanonicalizeTour g a
               /\ AreEqual (ComputePathLength g a) best = true.

Definition result_ok (res : TourResult) : Prop :=
  length (best_paths res) = length (best_paths_labels res)
  /\ NoDup (best_paths_labels res)
  /\ best_paths_labels res = map (serialize g) (best_paths res)
  /\ Forall (stored_ok (best_length res)) (best_paths res).

Lemma close_shape (x : list nat) :
  x <> [] ->
  head (close x) = last (close x)
  /\ length (close x) = S (length x)
  /\ removelast (close x) = x
  /\ is_nil (close x) = false.
Proof.
  destruct x as [|v x]; [congruence|]. intros _.
  assert (Hlast : last (close (v :: x)) = Some v) by apply last_snoc.
  assert (Hrm : removelast (close (v :: x)) = v :: x) by apply removelast_last.
  repeat split; [now rewrite Hlast | now apply close_length | exact Hrm].
Qed.

Lemma canonical_shape (a : list nat) :
  hamiltonian (VertexCount g) a ->
  head (CanonicalizeTour g a) = last (CanonicalizeTour g a)
  /\ length (CanonicalizeTour g a) = S (VertexCount g)
  /\ removelast (CanonicalizeTour g a) ≡ₚ seq 0 (VertexCount g).
Proof.
  intros (c & Hne & Hperm & ->).
  rewrite CanonicalizeTour_close by assumption.
  pose proof (canon_cycle_turn_of g c Hne) as Hturn.
  pose proof (turn_of_Permutation _ _ Hturn) as Hp.
  assert (Hne' : canon_cycle g c <> []).
  { intros Heq. rewrite Heq in Hp. apply Permutation_nil_l in Hp. congruence. }
  destruct (close_shape (canon_cycle g c) Hne') as (H1 & H2 & H3 & _).
  split; [exact H1|]. split.
  - rewrite H2. f_equal. rewrite Hp, Hperm. apply length_seq.
  - rewrite H3. now rewrite Hp.
Qed.

Lemma valid_ant_not_nil (p : AntPath) : valid_ant p -> is_nil (path p) = false.
Proof.
  intros ((c & Hne & _ & ->) & _). now apply close_shape.
Qed.

Lemma UpdateBest_ok (p : AntPath) (res : TourResult) :
  valid_ant p -> result_ok res -> result_ok (UpdateBest g p res).
Proof.
  intros Hp (Hsz & Hnd & Hser & Hall).
  pose proof (valid_ant_not_nil p Hp) as Hnil.
  destruct Hp as (Hham & Hlen & Hfin).
  pose proof (canonical_shape (path p) Hham) as (Hc1 & Hc2 & Hc3).
  unfold UpdateBest. rewrite Hnil, Hfin. cbn [negb orb].
  destruct (is_nil (best_paths res) || (path_length p + 1e-9 <? best_length res)).
  - repeat split; cbn [best_paths best_paths_labels best_length];
      [apply NoDup_singleton|].
    repeat constructor; try assumption.
    exists (path p). repeat split; [assumption|].
    rewrite <- Hlen. now apply DblFacts.AreEqual_refl.
  - destruct (AreEqual (path_length p) (best_length res)) eqn:Heq;
      [|repeat split; assumption].
    destruct (bool_decide (serialize g (CanonicalizeTour g (path p)) ∈ best_paths_labels res))
      eqn:Hin; [repeat split; assumption|].
    apply bool_decide_eq_false in Hin.
    repeat split; cbn [best_paths best_paths_labels best_length].
    + rewrite !length_app. cbn. lia.
    + apply NoDup_app. repeat split; [assumption | | apply NoDup_singleton].
      intros x Hx Hx'. apply list_elem_of_singleton in Hx'. now subst.
    + rewrite Hser at 1. now rewrite fmap_app.
    + apply Forall_app. split; [assumption|].
      repeat constructor; try assumption.
      exists (path p). repeat split; [assumption|]. now rewrite <- Hlen.
Qed.

Lemma no_result_ok : result_ok no_result.
Proof. repeat split; constructor. Qed.

Lemma ConstructSolution_cases params pheromone r :
  is_nil (path (fst (ConstructSolution pow E g params pheromone r))) = true
  \/ valid_ant (fst (ConstructSolution pow E g params pheromone r)).
Proof.
  destruct (ConstructSolution_valid pow E g params pheromone r) as [-> | H];
    [now left | now right].
Qed.

Lemma ants_loop_ok params pheromone count r delta res :
  result_ok res ->
  result_ok (snd (ants_loop pow E g params pheromone count (r, delta, res))).
Proof.
  revert r delta res. induction count as [|count IH]; intros r delta res Hres; [assumption|].
  cbn [ants_loop].
  pose proof (ConstructSolution_cases params pheromone r) as Hc.
  destruct (ConstructSolution pow E g params pheromone r) as [p r'].
  cbn [fst] in Hc. destruct Hc as [Hnil | Hvalid].
  - rewrite Hnil. now apply IH.
  - rewrite (valid_ant_not_nil p Hvalid). apply IH. now apply UpdateBest_ok.
Qed.

Lemma sequential_loop_ok params count :
  result_ok (snd (sequential_loop pow E g params count)).
Proof.
  induction count as [|count IH]; [apply no_result_ok|].
  cbn [sequential_loop].
  destruct (sequential_loop pow E g params count) as [[ph r] res].
  cbn [snd] in IH. cbn [sequential_iteration].
  pose proof (ants_loop_ok params ph (ants params) r (zero_matrix g) res IH) as H.
  destruct (ants_loop pow E g params ph (ants params) _) as [[r' d'] res'].
  exact H.
Qed.

Lemma worker_loop_ok params pheromone count r ld tbl tbp :
  Forall valid_ant tbp ->
  Forall valid_ant (snd (worker_loop pow E g params pheromone count (r, ld, tbl, tbp))).
Proof.
  revert r ld tbl tbp. induction count as [|count IH]; intros r ld tbl tbp Hall; [assumption|].
  cbn [worker_loop].
  pose proof (ConstructSolution_cases params pheromone r) as Hc.
  destruct (ConstructSolution pow E g params pheromone r) as [p r'].
  cbn [fst] in Hc. destruct Hc as [Hnil | Hvalid].
  - rewrite Hnil. now apply IH.
  - rewrite (valid_ant_not_nil p Hvalid).
    destruct (path_length p + 1e-9 <? tbl).
    + apply IH. constructor; [assumption | constructor].
    + destruct (AreEqual (path_length p) tbl); [|now apply IH].
      apply IH. apply Forall_app. split; [assumption|].
      constructor; [assumption | constructor].
Qed.

Lemma worker_ok params T pheromone iteration t :
  Forall valid_ant (snd (worker pow E g params T pheromone iteration t)).
Proof.
  unfold worker. destruct (Nat.eqb _ 0); [constructor|].
  pose proof (worker_loop_ok params pheromone
                (ants params / T + (if Nat.ltb t (ants params mod T) then 1 else 0))
                (mt19937 E (worker_seed params t iteration)) (zero_matrix g)
                Dbl.kInfinity [] (List.Forall_nil _)) as H.
  destruct (worker_loop pow E g params pheromone _ _) as [[[r ld] tbl] tbp]. exact H.
Qed.

Lemma merge_worker_ok res tbp :
  Forall valid_ant tbp -> result_ok res -> result_ok (merge_worker g res tbp).
Proof.
  intros Hall. revert res. unfold merge_worker.
  induction Hall as [|p tbp Hp _ IH]; intros res Hres; [assumption|].
  cbn [foldl]. apply IH. now apply UpdateBest_ok.
Qed.

Lemma parallel_loop_ok params T schedule count :
  result_ok (snd (parallel_loop pow E g params T schedule count)).
Proof.
  induction count as [|count IH]; [apply no_result_ok|].
  cbn [parallel_loop].
  destruct (parallel_loop pow E g params T schedule count) as [ph res].
  cbn [snd] in IH. cbn [parallel_iteration snd].
  generalize (schedule count). intros order. revert res IH.
  induction order as [|t order IHo]; intros res Hres; [assumption|].
  cbn [foldl]. apply IHo.
  destruct (map (worker pow E g params T ph count) (seq 0 T) !! t) as [[ld tbp]|] eqn:Ht;
    [|assumption].
  apply merge_worker_ok; [|assumption].
  apply list_elem_of_lookup_2 in Ht. apply list_elem_of_fmap in Ht as (t' & Heq & _).
  pose proof (worker_ok params T ph count t') as Hw. rewrite <- Heq in Hw. exact Hw.
Qed.

End BestSet.

(** C8, as the code has it.  After every [UpdateBest] call of either
    runner (for the sequential runner: after any number of iterations and
    any number of further ants; for the parallel runner: after any number
    of iterations, in whatever order the workers take the lock),
    [best_paths] and [best_paths_labels] have the same size, the labels
    are pairwise distinct and are the label strings of the stored tours,
    and every stored tour is closed, has [N + 1] elements, visits each
    vertex exactly once and is the canonical form of an ant's tour whose
    length is within [1e-9] of [best_length]. *)
Theorem best_set_invariant (pow : float -> float -> float) (E : RandomEngine) (g : Graph)
    (params : AntColonyParameters) :
  (forall k a,
     result_ok g
       (snd (ants_loop pow E g params
               (fst (fst (sequential_loop pow E g params k))) a
               (snd (fst (sequential_loop pow E g params k)), zero_matrix g,
                snd (sequential_loop pow E g params k)))))
  /\ (forall T schedule k, result_ok g (snd (parallel_loop pow E g params T schedule k))).
Proof.
  split.
  - intros k a. apply ants_loop_ok. apply sequential_loop_ok.
  - intros T schedule k. apply parallel_loop_ok.
Qed.

(** A directed triangle whose only cycle is A, C, B. *)
Definition one_way_graph : Graph := parsed "A -> C [w=1]
C -> B [w=1]
B -> A [w=1]".

(** C8 as stated fails: on the one-way triangle the run stores the tour
    [0, 1, 2, 0], the canonical form of the ants' tour but its reversal,
    whose own length in the graph is [+inf] while [best_length] is 3. *)
Lemma stored_tour_length_counterexample :
  RunSequential pow_model lcg_engine one_way_graph default_params
  = {| best_length := 3;
       best_paths := [[0; 1; 2; 0]%nat];
       best_paths_labels := ["A->B->C->A"] |}
  /\ ComputePathLength one_way_graph [0; 1; 2; 0]%nat = infinity
  /\ AreEqual (ComputePathLength one_way_graph [0; 1; 2; 0]%nat) 3 = false.
Proof. repeat split; vm_compute; reflexivity. Qed.

(** ** C7: the pheromone field *)

(** Not below the floor: at least [1e-12], or NaN. *)
Definition above_floor (x : float) : Prop :=
  (x <? kFloor) = false /\ ((kFloor <=? x) = true \/ is_nan x = true).

Lemma not_below_cases (x : float) :
  (x <? kFloor) = false -> (kFloor <=? x) = true \/ is_nan x = true.
Proof.
  unfold is_nan. rewrite ltb_spec, leb_spec, FloatAxioms.eqb_spec.
  assert (Hk : exists m0 e0, Prim2SF kFloor = S754_finite false m0 e0)
    by (vm_compute; eauto).
  destruct Hk as (m0 & e0 & ->).
  destruct (Prim2SF x) as [s | s | | s m e]; cbn.
  - discriminate.
  - destruct s; [discriminate | now left].
  - now right.
  - destruct s; [discriminate|].
    unfold SFltb, SFleb, SFcompare.
    rewrite (Z.compare_antisym e e0).
    destruct (Z.compare e e0); cbn; try discriminate; auto.
    assert (Hm : Pos.compare_cont Eq m0 m = CompOpp (Pos.compare_cont Eq m m0))
      by (now rewrite Pos.compare_cont_antisym).
    rewrite Hm. destruct (Pos.compare_cont Eq m m0); cbn; try discriminate; auto.
Qed.

Lemma clamp_above (x : float) : above_floor (clamp x).
Proof.
  unfold clamp. destruct (x <? kFloor) eqn:Hx.
  - split; [reflexivity | now left].
  - split; [assumption | now apply not_below_cases].
Qed.

(** Matrices of [n] rows and [n] columns whose cells all satisfy [P]. *)
Definition cells (P : float -> Prop) (n : nat) (m : matrix) : Prop :=
  length m = n /\ Forall (fun row => length row = n /\ Forall P row) m.

Lemma cells_all P n m : cells P n m -> Forall (Forall P) m.
Proof. intros [_ H]. eapply Forall_impl; [exact H | now intros row [_ Hr]]. Qed.

Lemma cells_cell P n m i j : cells P n m -> (i < n)%nat -> (j < n)%nat -> P (cell m i j).
Proof.
  intros [Hlen Hall] Hi Hj. unfold cell.
  destruct (lookup_lt_is_Some_2 m i) as [row Hrow]; [lia|]. rewrite Hrow.
  destruct (Forall_lookup_1 _ _ _ _ Hall Hrow) as [Hrl Hrp].
  destruct (lookup_lt_is_Some_2 row j) as [x Hx]; [lia|]. rewrite Hx.
  exact (Forall_lookup_1 _ _ _ _ Hrp Hx).
Qed.

Lemma cells_replicate (P : float -> Prop) n x :
  P x -> cells P n (replicate n (replicate n x)).
Proof.
  intros Hx. split; [apply length_replicate|].
  apply Forall_replicate. split; [apply length_replicate | now apply Forall_replicate].
Qed.

Lemma cells_add_cell (P : float -> Prop) n m i j d :
  cells P n m -> (forall x, P x -> P (x + d)) -> cells P n (add_cell m i j d).
Proof.
  intros [Hlen Hall] Hd. unfold add_cell. split; [now rewrite length_alter|].
  apply Forall_alter; [assumption|].
  intros row _ [Hrl Hrp]. split; [now rewrite length_alter|].
  apply Forall_alter; [assumption | intros x _; apply Hd].
Qed.

(** The shape of the evaporation loops and of the sum of the deltas. *)
Lemma cells_combine (P Q R : float -> Prop) n (f : float -> float -> float) a b :
  cells P n a -> cells Q n b ->
  (forall x d, P x -> Q d -> R (f x d)) ->
  cells R n (imap (fun i row => imap (fun j x => f x (cell b i j)) row) a).
Proof.
  intros [Hlen Hall] Hb Hf. split; [now rewrite length_imap|].
  apply Forall_lookup_2. intros i row' Hrow'.
  apply list_lookup_imap_Some in Hrow' as (row & Hrow & ->).
  destruct (Forall_lookup_1 _ _ _ _ Hall Hrow) as [Hrl Hrp].
  pose proof (lookup_lt_Some _ _ _ Hrow) as Hi.
  split; [now rewrite length_imap|].
  apply Forall_lookup_2. intros j x' Hx'.
  apply list_lookup_imap_Some in Hx' as (x & Hx & ->).
  pose proof (lookup_lt_Some _ _ _ Hx) as Hj.
  apply Hf; [exact (Forall_lookup_1 _ _ _ _ Hrp Hx)|].
  apply (cells_cell Q n); [assumption | lia | lia].
Qed.

Lemma evaporate_above params pheromone delta :
  Forall (Forall above_floor) (evaporate params pheromone delta).
Proof.
  unfold evaporate. apply Forall_lookup_2. intros i row' Hrow'.
  apply list_lookup_imap_Some in Hrow' as (row & _ & ->).
  apply Forall_lookup_2. intros j x' Hx'.
  apply list_lookup_imap_Some in Hx' as (x & _ & ->).
  apply clamp_above.
Qed.

(** No closed tour through every vertex has length zero. *)
Definition no_zero_tour (g : Graph) : bool :=
  forallb (fun c => negb (ComputePathLength g (close c) =? 0))
          (permutations (seq 0 (VertexCount g))).

Section Evaporation.

Variable pow : float -> float -> float.
Variable E : RandomEngine.
Variable g : Graph.

Definition is_zero (x : float) : Prop := x = 0.
Definition fresh_or_floor (x : float) : Prop := x = 1 \/ x = kFloor.
Definition at_floor (x : float) : Prop := x = kFloor.

Lemma sequential_pheromone_above params k :
  Forall (Forall above_floor) (fst (fst (sequential_loop pow E g params (S k)))).
Proof.
  cbn [sequential_loop].
  destruct (sequential_loop pow E g params k) as [[ph r] res].
  cbn [sequential_iteration].
  destruct (ants_loop pow E g params ph (ants params) _) as [[r' d'] res'].
  apply evaporate_above.
Qed.

Lemma parallel_pheromone_above params T schedule k :
  Forall (Forall above_floor) (fst (parallel_loop pow E g params T schedule (S k))).
Proof.
  cbn [parallel_loop].
  destruct (parallel_loop pow E g params T schedule k) as [ph res].
  apply evaporate_above.
Qed.

Variable params : AntColonyParameters.
Hypothesis full_evaporation : evaporation params = 1.
Hypothesis no_deposit : q params = 0.
Hypothesis tours_not_zero : no_zero_tour g = true.

Lemma zero_plus_deposit (L : float) :
  Dbl.isfinite L = true -> (L =? 0) = false ->
  forall x, is_zero x -> is_zero (x + 0 / L).
Proof.
  intros Hfin Hnz x ->. unfold is_zero.
  destruct (DblFacts.zero_div L Hfin Hnz) as [-> | ->]; reflexivity.
Qed.

Lemma valid_ant_not_zero (p : AntPath) :
  valid_ant g p -> (path_length p =? 0) = false.
Proof.
  intros ((c & Hne & Hperm & Hpath) & Hlen & _).
  rewrite Hlen, Hpath.
  unfold no_zero_tour in tours_not_zero. rewrite forallb_forall in tours_not_zero.
  apply negb_true_iff. apply tours_not_zero.
  apply list_elem_of_In. apply permutations_Permutation. now symmetry.
Qed.

Lemma deposit_edges_zero (p : list nat) (L : float) (deltas : matrix) :
  Dbl.isfinite L = true -> (L =? 0) = false ->
  cells is_zero (VertexCount g) deltas ->
  cells is_zero (VertexCount g) (deposit_edges p (0 / L) deltas).
Proof.
  intros Hfin Hnz. revert deltas.
  induction p as [|u p IH]; intros deltas Hd; [assumption|].
  cbn [deposit_edges]. destruct p as [|v p]; [assumption|].
  apply IH. apply cells_add_cell; [assumption|].
  now apply zero_plus_deposit.
Qed.

Lemma DepositPheromone_zero (p : AntPath) (deltas : matrix) :
  valid_ant g p ->
  cells is_zero (VertexCount g) deltas ->
  cells is_zero (VertexCount g) (DepositPheromone p (q params) deltas).
Proof.
  intros Hp Hd. unfold DepositPheromone.
  destruct (_ || _); [assumption|].
  rewrite no_deposit. apply deposit_edges_zero; [apply Hp | | assumption].
  now apply valid_ant_not_zero.
Qed.

Lemma ants_loop_delta_zero pheromone count r delta res :
  cells is_zero (VertexCount g) delta ->
  cells is_zero (VertexCount g)
    (snd (fst (ants_loop pow E g params pheromone count (r, delta, res)))).
Proof.
  revert r delta res. induction count as [|count IH]; intros r delta res Hd; [assumption|].
  cbn [ants_loop].
  pose proof (ConstructSolution_cases pow E g params pheromone r) as Hc.
  destruct (ConstructSolution pow E g params pheromone r) as [p r'].
  cbn [fst] in Hc. destruct Hc as [Hnil | Hvalid].
  - rewrite Hnil. now apply IH.
  - rewrite (valid_ant_not_nil g p Hvalid). apply IH. now apply DepositPheromone_zero.
Qed.

Lemma zero_matrix_zero : cells is_zero (VertexCount g) (zero_matrix g).
Proof. now apply cells_replicate. Qed.

Lemma evaporate_to_floor pheromone delta :
  cells fresh_or_floor (VertexCount g) pheromone ->
  cells is_zero (VertexCount g) delta ->
  cells at_floor (VertexCount g) (evaporate params pheromone delta).
Proof.
  intros Hph Hd. unfold evaporate. rewrite full_evaporation.
  apply (cells_combine fresh_or_floor is_zero at_floor _
           (fun x d => clamp ((1 - 1) * x + d))); [assumption | assumption|].
  intros x d [-> | ->] ->; reflexivity.
Qed.

Lemma at_floor_fresh_or_floor n m : cells at_floor n m -> cells fresh_or_floor n m.
Proof.
  intros [Hlen Hall]. split; [assumption|].
  eapply Forall_impl; [exact Hall|]. intros row [Hrl Hrp]. split; [assumption|].
  eapply Forall_impl; [exact Hrp | now right].
Qed.

Lemma sequential_pheromone_floor k :
  cells at_floor (VertexCount g) (fst (fst (sequential_loop pow E g params (S k)))).
Proof.
  assert (H : forall k,
    cells fresh_or_floor (VertexCount g) (fst (fst (sequential_loop pow E g params k)))
    -> cells at_floor (VertexCount g) (fst (fst (sequential_loop pow E g params (S k))))).
  { intros k' Hk'. cbn [sequential_loop].
    destruct (sequential_loop pow E g params k') as [[ph r] res].
    cbn [fst] in Hk'. cbn [sequential_iteration].
    pose proof (ants_loop_delta_zero ph (ants params) r (zero_matrix g) res zero_matrix_zero)
      as Hd.
    destruct (ants_loop pow E g params ph (ants params) _) as [[r' d'] res'].
    cbn [fst snd] in *. now apply evaporate_to_floor. }
  induction k as [|k IH].
  - apply H. cbn. apply cells_replicate. now left.
  - apply H. now apply at_floor_fresh_or_floor.
Qed.

Lemma worker_loop_delta_zero pheromone count r ld tbl tbp :
  cells is_zero (VertexCount g) ld ->
  cells is_zero (VertexCount g)
    (snd (fst (fst (worker_loop pow E g params pheromone count (r, ld, tbl, tbp))))).
Proof.
  revert r ld tbl tbp. induction count as [|count IH]; intros r ld tbl tbp Hd; [assumption|].
  cbn [worker_loop].
  pose proof (ConstructSolution_cases pow E g params pheromone r) as Hc.
  destruct (ConstructSolution pow E g params pheromone r) as [p r'].
  cbn [fst] in Hc. destruct Hc as [Hnil | Hvalid].
  - rewrite Hnil. now apply IH.
  - rewrite (valid_ant_not_nil g p Hvalid).
    pose proof (DepositPheromone_zero p ld Hvalid Hd) as Hd'.
    destruct (path_length p + 1e-9 <? tbl); [now apply IH|].
    destruct (AreEqual (path_length p) tbl); now apply IH.
Qed.

Lemma worker_delta_zero T pheromone iteration t :
  cells is_zero (VertexCount g) (fst (worker pow E g params T pheromone iteration t)).
Proof.
  unfold worker. destruct (Nat.eqb _ 0); [apply zero_matrix_zero|].
  pose proof (worker_loop_delta_zero pheromone
                (ants params / T + (if Nat.ltb t (ants params mod T) then 1 else 0))
                (mt19937 E (worker_seed params t iteration)) (zero_matrix g)
                Dbl.kInfinity [] zero_matrix_zero) as H.
  destruct (worker_loop pow E g params pheromone _ _) as [[[r ld] tbl] tbp]. exact H.
Qed.

Lemma merged_delta_zero (locals : list matrix) (delta : matrix) :
  Forall (cells is_zero (VertexCount g)) locals ->
  cells is_zero (VertexCount g) delta ->
  cells is_zero (VertexCount g) (foldl matrix_add delta locals).
Proof.
  intros Hall. revert delta. induction Hall as [|l locals Hl _ IH]; intros delta Hd;
    [assumption|].
  cbn [foldl]. apply IH. unfold matrix_add.
  apply (cells_combine is_zero is_zero is_zero _ (fun x d => x + d));
    [assumption | assumption|].
  now intros x d -> ->.
Qed.

Lemma parallel_pheromone_floor T schedule k :
  cells at_floor (VertexCount g) (fst (parallel_loop pow E g params T schedule (S k))).
Proof.
  assert (H : forall k,
    cells fresh_or_floor (VertexCount g) (fst (parallel_loop pow E g params T schedule k))
    -> cells at_floor (VertexCount g)
         (fst (parallel_loop pow E g params T schedule (S k)))).
  { intros k' Hk'. cbn [parallel_loop].
    destruct (parallel_loop pow E g params T schedule k') as [ph res].
    cbn [fst] in Hk'. cbn [parallel_iteration fst].
    apply evaporate_to_floor; [assumption|].
    apply merged_delta_zero; [|apply zero_matrix_zero].
    apply Forall_forall. intros l Hl.
    apply list_elem_of_fmap in Hl as (w & -> & Hw).
    apply list_elem_of_fmap in Hw as (t & -> & _).
    apply worker_delta_zero. }
  induction k as [|k IH].
  - apply H. cbn. apply cells_replicate. now left.
  - apply H. now apply at_floor_fresh_or_floor.
Qed.

End Evaporation.

(** C7, as the code has it.  After every iteration of either runner no
    entry of the pheromone field compares below the floor [1e-12]: each
    entry is at least [1e-12] or is NaN (finiteness is not kept: a tour of
    length zero deposits [q / 0]).  With [evaporation = 1.0] and [q = 0],
    on a graph none of whose closed tours through all vertices has length
    zero, every entry is exactly the floor after any number of iterations
    from the first on. *)
Theorem pheromone_floor (pow : float -> float -> float) (E : RandomEngine) (g : Graph)
    (params : AntColonyParameters) :
  (forall k, Forall (Forall above_floor) (fst (fst (sequential_loop pow E g params (S k)))))
  /\ (forall T schedule k,
        Forall (Forall above_floor) (fst (parallel_loop pow E g params T schedule (S k))))
  /\ (evaporation params = 1 -> q params = 0 -> no_zero_tour g = true ->
      (forall k,
         Forall (Forall (eq kFloor)) (fst (fst (sequential_loop pow E g params (S k)))))
      /\ (forall T schedule k,
            Forall (Forall (eq kFloor))
                   (fst (parallel_loop pow E g params T schedule (S k))))).
Proof.
  split; [intros k; apply sequential_pheromone_above|].
  split; [intros T schedule k; apply parallel_pheromone_above|].
  intros Hevap Hq Htours.
  assert (Hall : forall m, cells at_floor (VertexCount g) m -> Forall (Forall (eq kFloor)) m).
  { intros m Hm. apply cells_all in Hm.
    eapply Forall_impl; [exact Hm|]. intros row Hrow.
    eapply Forall_impl; [exact Hrow|]. intros x Hx. now symmetry. }
  split.
  - intros k. apply Hall. now apply sequential_pheromone_floor.
  - intros T schedule k. apply Hall. now apply parallel_pheromone_floor.
Qed.

(** The fifth scenario: full evaporation and no deposit. *)
Definition clamp_params : AntColonyParameters :=
  {| ants := 8; iterations := 200; alpha := 1; beta := 3;
     evaporation := 1; q := 0; seed := 42 |}.

Lemma pheromone_floor_witness :
  Forall (Forall (eq kFloor))
         (fst (fst (sequential_loop pow_model lcg_engine triangle clamp_params 3)))
  /\ Forall (Forall (eq kFloor))
            (fst (parallel_loop pow_model lcg_engine triangle clamp_params 2
                    (fun _ => seq 0 2) 3)).
Proof.
  destruct (pheromone_floor pow_model lcg_engine triangle clamp_params) as (_ & _ & H).
  destruct (H eq_refl eq_refl) as [Hs Hp]; [vm_compute; reflexivity|].
  split; [apply (Hs 2%nat) | apply (Hp 2%nat (fun _ => seq 0 2) 2%nat)].
Defined.

(** A single vertex whose self-loop has weight zero. *)
Definition zero_loop_graph : Graph := parsed "A -> A [w=0]".

(** C7 as stated fails: on the graph parsed from [A -> A [w=0]] every ant
    returns the tour [0, 0] of length 0; with the default parameters the
    deposit [100 / 0] makes the entry [+inf] after the first iteration,
    and with [evaporation = 1], [q = 0] the deposit [0 / 0] makes it NaN
    instead of the floor. *)
Lemma pheromone_not_finite_counterexample :
  fst (fst (sequential_loop pow_model lcg_engine zero_loop_graph default_params 1))
  = [[infinity]]
  /\ fst (parallel_loop pow_model lcg_engine zero_loop_graph default_params 2
            (fun _ => seq 0 2) 1)
     = [[infinity]]
  /\ fst (fst (sequential_loop pow_model lcg_engine zero_loop_graph clamp_params 1))
     = [[nan]]
  /\ Dbl.isfinite infinity = false.
Proof. repeat split; vm_compute; reflexivity. Qed.

(** ** C5: candidates of a construction step *)

Section Candidates.

Variable pow : float -> float -> float.
Variable g : Graph.

(** C's Annex F: [pow(+0, y)] is [+0] for every [y > 0]. *)
Hypothesis pow_zero : forall y, (0 <? y) = true -> pow 0 y = 0.

(** With [beta > 0] and a finite [tau], a vertex behind a missing or
    non-positive edge is passed over. *)
Lemma scan_step_skips params pheromone visited current acc next :
  (0 <? beta params) = true ->
  Dbl.isfinite (pow (cell pheromone current next) (alpha params)) = true ->
  (Weight g current next <=? 0) || Dbl.isinf (Weight g current next) = true ->
  scan_step pow g params pheromone visited current acc next = acc.
Proof.
  intros Hbeta Htau Hw. unfold scan_step. destruct acc as [[cands probs] sum].
  destruct (default false (visited !! next)); [reflexivity|].
  unfold Heuristic. rewrite Hw, (pow_zero _ Hbeta).
  now rewrite DblFacts.mul_zero_not_positive.
Qed.

End Candidates.

(** Two vertices joined by a negative and a zero edge. *)
Definition bad_edges_graph : Graph := parsed "A -> B [w=-1]
B -> A [w=0]".

Definition beta_zero_params : AntColonyParameters :=
  {| ants := 1; iterations := 1; alpha := 1; beta := 0;
     evaporation := 0.5; q := 100; seed := 42 |}.

(** C5 at [beta = 0]: from vertex 0, vertex 1 lies behind an edge of
    weight -1, yet it is a candidate, since [pow(0, 0) = 1] makes its
    value positive; likewise from vertex 1, where the only ant of the run
    starts and walks the edge of weight 0 to vertex 0.  Its tour, of
    length -1, becomes the best one. *)
Theorem beta_zero_follows_bad_edge :
  Weight bad_edges_graph 0 1 = -1
  /\ Weight bad_edges_graph 1 0 = 0
  /\ scan_candidates pow_model bad_edges_graph beta_zero_params
       (InitialPheromone bad_edges_graph) [true; false] 0
     = ([1%nat], [1], 1)
  /\ fst (ConstructSolution pow_model lcg_engine bad_edges_graph beta_zero_params
            (InitialPheromone bad_edges_graph) (mt19937 lcg_engine 42))
     = {| path := [1; 0; 1]%nat; path_length := -1 |}
  /\ RunSequential pow_model lcg_engine bad_edges_graph beta_zero_params
     = {| best_length := -1;
          best_paths := [[0; 1; 0]%nat];
          best_paths_labels := ["A->B->A"] |}.
Proof. repeat split; vm_compute; reflexivity. Qed.

(** ** C2: the order in which workers merge *)

(** The complete graph on four vertices with unit weights. *)
Definition k4_graph : Graph := parsed "A -- B
A -- C
A -- D
B -- C
B -- D
C -- D".

Definition two_ants : AntColonyParameters :=
  {| ants := 2; iterations := 1; alpha := 1; beta := 3;
     evaporation := 0.5; q := 100; seed := 43 |}.

(** C2 on two workers with one ant each: their tours have the same length
    and different canonical forms, so the label sequence of the result is
    the order in which the two workers took [best_mutex]. *)
Theorem lock_order_shows :
  map (fun t => map path (snd (worker pow_model lcg_engine k4_graph two_ants 2
                                 (InitialPheromone k4_graph) 0 t))) [0; 1]%nat
  = [[[3; 0; 1; 2; 3]%nat]; [[0; 2; 3; 1; 0]%nat]]
  /\ best_paths_labels
       (RunParallel pow_model lcg_engine k4_graph two_ants 2 (fun _ => [0; 1]%nat))
     = ["A->B->C->D->A"; "A->B->D->C->A"]
  /\ best_paths_labels
       (RunParallel pow_model lcg_engine k4_graph two_ants 2 (fun _ => [1; 0]%nat))
     = ["A->B->D->C->A"; "A->B->C->D->A"].
Proof. repeat split; vm_compute; reflexivity. Qed.

(** * Further properties of the code *)

(** ** [ConstructSolution], [UpdateBest], [CanonicalizeTour] *)

(** X1. Whatever the pheromone field and the random draws, an ant returns
    either the dead end (no path, length [+inf]) or a closed tour that
    visits every vertex exactly once and comes back to its start, together
    with the finite sum of its edge weights. *)
Theorem ConstructSolution_tour (pow : float -> float -> float) (E : RandomEngine)
    (g : Graph) (params : AntColonyParameters) (pheromone : matrix) (r : rng E) :
  (path (fst (ConstructSolution pow E g params pheromone r)) = []
   /\ path_length (fst (ConstructSolution pow E g params pheromone r)) = Dbl.kInfinity)
  \/ (exists c,
        c ≡ₚ seq 0 (VertexCount g)
        /\ (1 <= VertexCount g)%nat
        /\ path (fst (ConstructSolution pow E g params pheromone r)) = c ++ take 1 c
        /\ path_length (fst (ConstructSolution pow E g params pheromone r))
           = ComputePathLength g (c ++ take 1 c)
        /\ Dbl.isfinite (path_length (fst (ConstructSolution pow E g params pheromone r)))
           = true).
Proof.
  destruct (ConstructSolution_valid pow E g params pheromone r)
    as [-> | ((c & Hne & Hperm & Hpath) & Hlen & Hfin)]; [left; now split|].
  right. exists c.
  assert (Hfront : front c = take 1 c) by (now destruct c).
  split; [assumption|]. split.
  - apply Permutation_length in Hperm. rewrite length_seq in Hperm.
    destruct c; [congruence | cbn in Hperm; lia].
  - rewrite <- Hfront. split; [exact Hpath|]. split; [|exact Hfin].
    rewrite Hlen. now rewrite Hpath.
Qed.

(** X2. One call of [UpdateBest] with an ant's tour keeps the best set
    well formed: as many labels as tours, labels pairwise distinct and
    equal to the label strings of the tours, every tour closed, of
    [N + 1] elements, through every vertex once, and the canonical form of
    an ant's tour within [1e-9] of [best_length]. *)
Theorem UpdateBest_keeps_best_set (g : Graph) (p : AntPath) (res : TourResult) :
  valid_ant g p -> result_ok g res -> result_ok g (UpdateBest g p res).
Proof. apply UpdateBest_ok. Qed.

Definition triangle_tour : AntPath := {| path := [0; 1; 2; 0]%nat; path_length := 8 |}.

Lemma triangle_tour_valid : valid_ant triangle triangle_tour.
Proof.
  split; [|split; reflexivity].
  exists [0; 1; 2]%nat. split; [discriminate|]. split; reflexivity.
Qed.

Lemma UpdateBest_keeps_best_set_witness :
  result_ok triangle (UpdateBest triangle triangle_tour no_result).
Proof.
  apply (UpdateBest_keeps_best_set triangle triangle_tour no_result).
  - exact triangle_tour_valid.
  - apply no_result_ok.
Defined.

(** X3. On a closed tour [CanonicalizeTour] returns a closed tour over
    the same cycle, rotated and possibly reversed, and no rotation or
    reversal of the cycle has a smaller key. *)
Theorem CanonicalizeTour_least_turn (g : Graph) (c : list nat) :
  c <> [] ->
  exists x,
    CanonicalizeTour g (close c) = close x
    /\ turn_of c x
    /\ forall y, turn_of c y -> String.ltb (Key.key_of g y) (Key.key_of g x) = false.
Proof.
  intros Hne. exists (canon_cycle g c). split; [now apply CanonicalizeTour_close|].
  split; [now apply canon_cycle_turn_of|].
  intros y Hy. now apply canon_cycle_least.
Qed.

Lemma CanonicalizeTour_least_turn_witness :
  exists x,
    CanonicalizeTour triangle (close [2; 0; 1]%nat) = close x
    /\ turn_of [2; 0; 1]%nat x
    /\ forall y, turn_of [2; 0; 1]%nat y ->
         String.ltb (Key.key_of triangle y) (Key.key_of triangle x) = false.
Proof. apply (CanonicalizeTour_least_turn triangle [2; 0; 1]%nat). discriminate. Defined.

(** X4. A tour given open (at least two elements, the last differing from
    the first) is canonicalized as its closed form is: the result is
    closed either way. *)
Theorem CanonicalizeTour_open (g : Graph) (c : list nat) :
  (2 <= length c)%nat -> head c <> last c ->
  CanonicalizeTour g c = CanonicalizeTour g (close c).
Proof.
  intros Hlen Hopen.
  assert (Hne : c <> []) by (intros ->; cbn in Hlen; lia).
  rewrite (CanonicalizeTour_close g c Hne).
  unfold CanonicalizeTour.
  destruct (Nat.leb (length c) 1) eqn:Hle; [apply Nat.leb_le in Hle; lia|].
  rewrite bool_decide_eq_false_2 by assumption.
  destruct c as [|v c]; [congruence|].
  unfold close, canon_cycle, select.
  destruct (foldl (try_shift g (v :: c)) _ _) as [[k s] r]. reflexivity.
Qed.

Lemma CanonicalizeTour_open_witness :
  CanonicalizeTour triangle [2; 0; 1]%nat = CanonicalizeTour triangle (close [2; 0; 1]%nat).
Proof.
  apply (CanonicalizeTour_open triangle [2; 0; 1]%nat); [cbn; lia | discriminate].
Defined.

(** ** The pheromone update, the candidate test, the tolerance *)

(** X5. The evaporation step keeps the shape of the field and leaves no
    entry below the floor: every entry of the new field is at least
    [1e-12] or NaN. *)
Theorem evaporate_keeps_floor (params : AntColonyParameters) (pheromone delta : matrix) :
  Forall (Forall above_floor) (evaporate params pheromone delta)
  /\ length (evaporate params pheromone delta) = length pheromone
  /\ forall i row, pheromone !! i = Some row ->
       exists row', evaporate params pheromone delta !! i = Some row'
                    /\ length row' = length row.
Proof.
  split; [apply evaporate_above|]. unfold evaporate.
  split; [apply length_imap|].
  intros i row Hrow. rewrite list_lookup_imap, Hrow. cbn.
  eexists. split; [reflexivity | apply length_imap].
Qed.

Lemma pow_model_zero (y : float) : (0 <? y) = true -> pow_model 0 y = 0.
Proof.
  intros Hy. unfold pow_model.
  assert (Hnz : (y =? 0) = false).
  { rewrite ltb_spec, DblFacts.Prim2SF_zero in Hy.
    rewrite FloatAxioms.eqb_spec, DblFacts.Prim2SF_zero.
    destruct (Prim2SF y) as [s | s | | s m e]; cbn in *; try discriminate;
      destruct s; cbn in *; congruence. }
  rewrite Hnz, Hy.
  change (0 =? 1) with false. change (0 =? 0) with true. cbv iota.
  destruct (float_integer y) as [k|]; [destruct (Z.odd k)|]; reflexivity.
Qed.

(** X6. With [beta > 0], a [pow] that maps [(+0, beta)] to [+0] and a
    finite [tau], a vertex behind a missing edge or an edge of weight at
    most zero is not made a candidate: the step over it leaves the
    candidate list, the probabilities and the sum as they were. *)
Theorem candidate_skipped (pow : float -> float -> float) (g : Graph)
    (params : AntColonyParameters) (pheromone : matrix) (visited : list bool)
    (current next : nat) (acc : list nat * list float * float) :
  (forall y, (0 <? y) = true -> pow 0 y = 0) ->
  (0 <? beta params) = true ->
  Dbl.isfinite (pow (cell pheromone current next) (alpha params)) = true ->
  (Weight g current next <=? 0) || Dbl.isinf (Weight g current next) = true ->
  scan_step pow g params pheromone visited current acc next = acc.
Proof. intros Hpow Hbeta Htau Hw. now apply (scan_step_skips pow g Hpow). Qed.

Lemma candidate_skipped_witness :
  scan_step pow_model one_way_graph default_params (InitialPheromone one_way_graph)
    [true; false; false] 0 ([], [], 0) 1
  = ([], [], 0).
Proof.
  apply (candidate_skipped pow_model one_way_graph default_params
           (InitialPheromone one_way_graph) [true; false; false] 0%nat 1%nat ([], [], 0)).
  - exact pow_model_zero.
  - reflexivity.
  - vm_compute. reflexivity.
  - vm_compute. reflexivity.
Defined.

(** X7. [AreEqual] holds between a double and itself exactly when the
    double is finite: an infinite length is not even equal to itself. *)
Theorem AreEqual_self (x : float) : AreEqual x x = Dbl.isfinite x.
Proof.
  destruct (Dbl.isfinite x) eqn:Hfin; [now apply DblFacts.AreEqual_refl|].
  unfold AreEqual, Dbl.fabs.
  rewrite leb_spec, abs_spec, sub_spec.
  unfold Dbl.isfinite, is_finite, is_nan, is_infinity in Hfin.
  rewrite !FloatAxioms.eqb_spec, abs_spec, DblFacts.Prim2SF_infinity in Hfin.
  destruct (Prim2SF x) as [s | s | | s m e].
  - destruct s; vm_compute in Hfin; discriminate.
  - destruct s; reflexivity.
  - reflexivity.
  - unfold SFeqb, SFcompare, SFabs in Hfin.
    destruct s; rewrite Z.compare_refl, Pos.compare_cont_refl in Hfin; discriminate.
Qed.

(** ** The graph [FromGraphviz] builds *)

Lemma leb_ltb (a b : string) : String.leb a b = negb (String.ltb b a).
Proof.
  unfold String.leb, String.ltb. rewrite (String.compare_antisym b a).
  now destruct (String.compare a b).
Qed.

#[local] Instance label_le_total : Total label_le.
Proof. intros a b. apply String.leb_total. Qed.

#[local] Instance label_le_trans : Transitive label_le.
Proof.
  intros a b c. unfold label_le. rewrite !leb_ltb, !negb_true_iff.
  intros Hab Hbc. eapply StrOrd.le_trans; eassumption.
Qed.

(** The edges [FromGraphviz] keeps, in the order of their lines. *)
Definition kept_edges (input : string) : list RawEdge :=
  match read_edges (Text.getlines input) [] ∅ with
  | Ok (edges, _) => edges
  | Throw _ => []
  end.

Lemma read_edges_spec (lines : list string) (edges : list RawEdge) (labels : gset string)
    (edges' : list RawEdge) (labels' : gset string) :
  read_edges lines edges labels = Ok (edges', labels') ->
  exists more,
    edges' = edges ++ more
    /\ Forall (fun e => is_empty (from e) = false /\ is_empty (to e) = false) more
    /\ forall l, l ∈ labels' <-> l ∈ labels \/ exists e, e ∈ more /\ (l = from e \/ l = to e).
Proof.
  revert edges labels. induction lines as [|line lines IH]; intros edges labels Hrun.
  - cbn in Hrun. injection Hrun as <- <-. exists []. rewrite app_nil_r.
    split; [reflexivity|]. split; [constructor|].
    intros l. split; [now left|]. intros [H | (e & He & _)]; [assumption|].
    now apply elem_of_nil in He.
  - cbn [read_edges] in Hrun.
    destruct (ParseEdgeLine line) as [edge|what]; [|discriminate]. cbn [obind] in Hrun.
    destruct (is_empty (from edge) || is_empty (to edge)) eqn:Hempty.
    + now apply IH.
    + apply orb_false_iff in Hempty.
      destruct (IH _ _ Hrun) as (more & -> & Hall & Hlab).
      exists (edge :: more). rewrite <- app_assoc. split; [reflexivity|].
      split; [now constructor|].
      intros l. rewrite Hlab. rewrite !elem_of_union, !elem_of_singleton.
      split.
      * intros [[-> | [-> | H]] | (e & He & Hl)].
        -- right. exists edge. split; [apply list_elem_of_here | now right].
        -- right. exists edge. split; [apply list_elem_of_here | now left].
        -- now left.
        -- right. exists e. split; [now apply list_elem_of_further | assumption].
      * intros [H | (e & He & Hl)]; [left; right; now right|].
        apply elem_of_cons in He as [-> | He].
        -- left. destruct Hl as [-> | ->]; [right; now left | now left].
        -- right. exists e. now split.
Qed.

Lemma emplace_labels_lookup (ls : list string) (start : nat) (m : gmap string nat)
    (l : string) (i : nat) :
  NoDup ls -> (forall x, x ∈ ls -> m !! x = None) ->
  emplace_labels ls start m !! l = Some i
  <-> m !! l = Some i \/ exists k, ls !! k = Some l /\ i = (start + k)%nat.
Proof.
  revert start m. induction ls as [|x ls IH]; intros start m Hnd Hfresh.
  - cbn. split; [now left|]. intros [H | (k & Hk & _)]; [assumption | discriminate].
  - apply NoDup_cons in Hnd as [Hx Hnd].
    cbn [emplace_labels]. rewrite (Hfresh x) by apply list_elem_of_here.
    rewrite IH; [|assumption|].
    + split.
      * intros [H | (k & Hk & ->)].
        -- destruct (decide (x = l)) as [-> | Hne].
           ++ rewrite lookup_insert_eq in H. injection H as <-.
              right. exists 0%nat. split; [reflexivity | lia].
           ++ rewrite lookup_insert_ne in H by assumption. now left.
        -- right. exists (S k). split; [assumption | lia].
      * intros [H | (k & Hk & ->)].
        -- left. rewrite lookup_insert_ne; [assumption|].
           intros ->. rewrite (Hfresh l) in H by apply list_elem_of_here. discriminate.
        -- destruct k as [|k].
           ++ cbn in Hk. injection Hk as ->. left.
              rewrite lookup_insert_eq. f_equal. lia.
           ++ right. exists k. split; [assumption | lia].
    + intros y Hy. rewrite lookup_insert_ne by (intros ->; contradiction).
      apply Hfresh. now apply list_elem_of_further.
Qed.

Lemma build_graph_labels (edges : list RawEdge) (labels : gset string) :
  NoDup (index_to_label_ (build_graph edges labels))
  /\ StronglySorted label_le (index_to_label_ (build_graph edges labels))
  /\ (forall i l, index_to_label_ (build_graph edges labels) !! i = Some l
                  <-> label_to_index_ (build_graph edges labels) !! l = Some i)
  /\ (forall l, l ∈ index_to_label_ (build_graph edges labels) <-> l ∈ labels).
Proof.
  unfold build_graph. case_bool_decide as Hempty.
  - subst labels. unfold empty_graph. cbn [index_to_label_ label_to_index_].
    split; [constructor|]. split; [constructor|]. split.
    + intros i l. split; [discriminate|]. intros H. rewrite lookup_empty in H. discriminate.
    + intros l. split; intros H; [now apply elem_of_nil in H | now apply elem_of_empty in H].
  - cbn [index_to_label_ label_to_index_].
    assert (Hperm : merge_sort label_le (elements labels) ≡ₚ elements labels)
      by apply merge_sort_Permutation.
    assert (Hnd : NoDup (merge_sort label_le (elements labels)))
      by (rewrite Hperm; apply NoDup_elements).
    split; [exact Hnd|]. split; [apply StronglySorted_merge_sort; apply _|]. split.
    + intros i l. rewrite (emplace_labels_lookup _ 0 ∅ l i Hnd).
      * split.
        -- intros H. right. exists i. now split.
        -- intros [H | (k & Hk & ->)]; [rewrite lookup_empty in H; discriminate|].
           exact Hk.
      * intros x _. apply lookup_empty.
    + intros l. rewrite Hperm. apply elem_of_elements.
Qed.

Lemma FromGraphviz_inv (input : string) (g : Graph) :
  FromGraphviz input = Ok g ->
  exists labels,
    read_edges (Text.getlines input) [] ∅ = Ok (kept_edges input, labels)
    /\ g = build_graph (kept_edges input) labels.
Proof.
  unfold FromGraphviz, kept_edges.
  destruct (read_edges (Text.getlines input) [] ∅) as [[edges labels]|what]; [|discriminate].
  cbn. intros H. injection H as <-. now exists labels.
Qed.

(** The two tables of a parsed graph are inverse to each other, and the
    labels are the endpoints of the edges kept. *)
Lemma FromGraphviz_label_index (input : string) (g : Graph) :
  FromGraphviz input = Ok g ->
  (forall i l, index_to_label_ g !! i = Some l <-> label_to_index_ g !! l = Some i)
  /\ (forall l, l ∈ index_to_label_ g
                <-> exists e, e ∈ kept_edges input /\ (l = from e \/ l = to e)).
Proof.
  intros Hg. destruct (FromGraphviz_inv input g Hg) as (labels & Hread & ->).
  destruct (build_graph_labels (kept_edges input) labels) as (_ & _ & Hinv & Hmem).
  destruct (read_edges_spec _ _ _ _ _ Hread) as (more & Hmore & _ & Hlab).
  cbn [app] in Hmore. subst more. split; [exact Hinv|].
  intros l. rewrite Hmem, Hlab. split.
  - intros [H | H]; [now apply elem_of_empty in H | exact H].
  - intros H. now right.
Qed.

(** X8. In a graph that [FromGraphviz] returns, the labels are pairwise
    distinct, non-empty and in ascending order, they are exactly the
    endpoints of the edges kept, and [label_to_index_] is the inverse of
    [index_to_label_]: a label is at index [i] exactly when the map sends
    it to [i]. *)
Theorem FromGraphviz_labels (input : string) (g : Graph) :
  FromGraphviz input = Ok g ->
  NoDup (index_to_label_ g)
  /\ StronglySorted (fun a b => String.leb a b = true) (index_to_label_ g)
  /\ (forall i l, index_to_label_ g !! i = Some l <-> label_to_index_ g !! l = Some i)
  /\ (forall l, l ∈ index_to_label_ g
                <-> exists e, e ∈ kept_edges input /\ (l = from e \/ l = to e))
  /\ (forall l, l ∈ index_to_label_ g -> l <> EmptyString).
Proof.
  intros Hg. destruct (FromGraphviz_inv input g Hg) as (labels & Hread & ->).
  destruct (build_graph_labels (kept_edges input) labels) as (Hnd & Hsort & Hinv & Hmem).
  destruct (read_edges_spec _ _ _ _ _ Hread) as (more & Hmore & Hall & Hlab).
  cbn [app] in Hmore. subst more.
  assert (Hends : forall l, l ∈ index_to_label_ (build_graph (kept_edges input) labels)
                            <-> exists e, e ∈ kept_edges input /\ (l = from e \/ l = to e)).
  { intros l. rewrite Hmem, Hlab. split.
    - intros [H | H]; [now apply elem_of_empty in H | exact H].
    - intros H. now right. }
  repeat split; try assumption; try (now apply Hinv); try (now apply Hends).
  intros l Hl ->. apply Hends in Hl as (e & He & Hl).
  rewrite Forall_forall in Hall. destruct (Hall e He) as [Hf Ht].
  destruct Hl as [Hl | Hl]; rewrite <- Hl in *; discriminate.
Qed.

Definition parse_sample : string := "# note
'1' -> '2' [weight=3.5]
X -- Y [label=2]".

Lemma FromGraphviz_labels_witness :
  NoDup (index_to_label_ (parsed parse_sample))
  /\ StronglySorted (fun a b => String.leb a b = true) (index_to_label_ (parsed parse_sample))
  /\ (forall i l, index_to_label_ (parsed parse_sample) !! i = Some l
                  <-> label_to_index_ (parsed parse_sample) !! l = Some i)
  /\ (forall l, l ∈ index_to_label_ (parsed parse_sample)
                <-> exists e, e ∈ kept_edges parse_sample /\ (l = from e \/ l = to e))
  /\ (forall l, l ∈ index_to_label_ (parsed parse_sample) -> l <> EmptyString).
Proof.
  apply (FromGraphviz_labels parse_sample (parsed parse_sample)).
  vm_compute. reflexivity.
Defined.

(** A matrix of [n] rows of [n] cells. *)
Definition square (n : nat) (m : matrix) : Prop := cells (fun _ => True) n m.

Lemma set_cell_square n adj f t w : square n adj -> square n (set_cell adj f t w).
Proof.
  intros [Hlen Hall]. unfold set_cell. split; [now rewrite length_alter|].
  apply Forall_alter; [assumption|].
  intros row _ [Hrl _]. split; [now rewrite length_insert|].
  apply Forall_forall. auto.
Qed.

(** A write changes at most the cell it names. *)
Lemma set_cell_other adj f t w i j :
  cell (set_cell adj f t w) i j = cell adj i j
  \/ (f = i /\ t = j /\ cell (set_cell adj f t w) i j = w).
Proof.
  unfold cell, set_cell. rewrite list_lookup_alter.
  destruct (decide (f = i)) as [-> | Hne]; [|now left].
  destruct (adj !! i) as [row|]; cbn; [|now left].
  rewrite list_lookup_insert.
  destruct (decide (t = j /\ (t < length row)%nat)) as [[-> Hlt] | Hno]; [|now left].
  right. now repeat split.
Qed.

Lemma set_cell_same n adj f t w :
  square n adj -> (f < n)%nat -> (t < n)%nat -> cell (set_cell adj f t w) f t = w.
Proof.
  intros [Hlen Hall] Hf Ht. unfold cell, set_cell. rewrite list_lookup_alter_eq.
  destruct (lookup_lt_is_Some_2 adj f) as [row Hrow]; [lia|]. rewrite Hrow. cbn.
  destruct (Forall_lookup_1 _ _ _ _ Hall Hrow) as [Hrl _].
  now rewrite list_lookup_insert_eq by lia.
Qed.

Lemma set_cell_apart adj f t w i j :
  (f, t) <> (i, j) -> cell (set_cell adj f t w) i j = cell adj i j.
Proof.
  intros Hne. destruct (set_cell_other adj f t w i j) as [H | (-> & -> & _)];
    [assumption | congruence].
Qed.

Lemma zero_diagonal_spec (n : nat) (l : list nat) (adj : matrix) :
  square n adj -> Forall (fun i => i < n)%nat l ->
  square n (foldl (fun a i => set_cell a i i 0) adj l)
  /\ forall i j, (i < n)%nat -> (j < n)%nat ->
       cell (foldl (fun a i => set_cell a i i 0) adj l) i j
       = if bool_decide (i = j /\ i ∈ l) then 0 else cell adj i j.
Proof.
  revert adj. induction l as [|x l IH]; intros adj Hsq Hl.
  - split; [assumption|]. intros i j _ _. rewrite bool_decide_eq_false_2; [reflexivity|].
    intros [_ H]. now apply elem_of_nil in H.
  - inversion Hl as [|? ? Hx Hl']; subst. cbn [foldl].
    destruct (IH (set_cell adj x x 0) (set_cell_square _ _ _ _ _ Hsq) Hl') as [Hsq' Hcell].
    split; [assumption|]. intros i j Hi Hj. rewrite Hcell by assumption.
    destruct (decide (i = j /\ i ∈ l)) as [Hin | Hout].
    + rewrite !bool_decide_eq_true_2; [reflexivity | | assumption].
      destruct Hin as [-> Hin]. split; [reflexivity | now apply list_elem_of_further].
    + rewrite (bool_decide_eq_false_2 _ Hout).
      destruct (decide (i = j /\ i = x)) as [[-> ->] | Hno].
      * rewrite bool_decide_eq_true_2 by (split; [reflexivity | apply list_elem_of_here]).
        now apply (set_cell_same n).
      * rewrite bool_decide_eq_false_2.
        -- apply set_cell_apart. intros Heq. injection Heq as -> ->. now apply Hno.
        -- intros [-> Hin]. apply elem_of_cons in Hin as [-> | Hin]; [now apply Hno|].
           now apply Hout.
Qed.

Lemma add_edge_square n index adj e : square n adj -> square n (add_edge index adj e).
Proof.
  intros Hsq. unfold add_edge.
  destruct (index !! from e) as [f|]; [|assumption].
  destruct (index !! to e) as [t|]; [|assumption].
  destruct (bidirectional e); repeat apply set_cell_square; assumption.
Qed.

(** Where an edge writes: [i, j] is the cell of its two endpoints, or of
    the two swapped when the edge is bidirectional. *)
Definition writes (index : gmap string nat) (e : RawEdge) (i j : nat) : Prop :=
  (index !! from e = Some i /\ index !! to e = Some j)
  \/ (bidirectional e = true /\ index !! from e = Some j /\ index !! to e = Some i).

Lemma add_edge_cell index adj e i j :
  cell (add_edge index adj e) i j = cell adj i j
  \/ (writes index e i j /\ cell (add_edge index adj e) i j = weight e).
Proof.
  unfold add_edge, writes.
  destruct (index !! from e) as [f|]; [|now left].
  destruct (index !! to e) as [t|]; [|now left].
  destruct (bidirectional e).
  - destruct (set_cell_other (set_cell adj f t (weight e)) t f (weight e) i j)
      as [H | (-> & -> & H)].
    + rewrite H. destruct (set_cell_other adj f t (weight e) i j) as [H' | (-> & -> & H')].
      * now left.
      * right. split; [left; now split | assumption].
    + right. split; [right; now repeat split | assumption].
  - destruct (set_cell_other adj f t (weight e) i j) as [H' | (-> & -> & H')].
    + now left.
    + right. split; [left; now split | assumption].
Qed.

Lemma add_edges_cell index edges adj i j :
  cell (foldl (add_edge index) adj edges) i j = cell adj i j
  \/ exists e, e ∈ edges /\ writes index e i j
               /\ cell (foldl (add_edge index) adj edges) i j = weight e.
Proof.
  revert adj. induction edges as [|e edges IH]; intros adj; [now left|].
  cbn [foldl].
  destruct (IH (add_edge index adj e)) as [H | (e' & He' & Hw & H)].
  - rewrite H. destruct (add_edge_cell index adj e i j) as [H' | [Hw H']].
    + now left.
    + right. exists e. split; [apply list_elem_of_here | now split].
  - right. exists e'. split; [now apply list_elem_of_further | now split].
Qed.

Lemma add_edges_square n index edges adj :
  square n adj -> square n (foldl (add_edge index) adj edges).
Proof.
  revert adj. induction edges as [|e edges IH]; intros adj Hsq; [assumption|].
  cbn [foldl]. apply IH. now apply add_edge_square.
Qed.

Lemma build_graph_matrix (edges : list RawEdge) (labels : gset string) :
  square (VertexCount (build_graph edges labels)) (adjacency_ (build_graph edges labels))
  /\ forall i j,
       (i < VertexCount (build_graph edges labels))%nat ->
       (j < VertexCount (build_graph edges labels))%nat ->
       Weight (build_graph edges labels) i j
       = (if Nat.eqb i j then 0 else Dbl.kInfinity)
       \/ exists e, e ∈ edges
                    /\ writes (label_to_index_ (build_graph edges labels)) e i j
                    /\ Weight (build_graph edges labels) i j = weight e.
Proof.
  unfold build_graph. case_bool_decide as Hempty.
  - split; [split; constructor|]. cbn. intros i j Hi. lia.
  - unfold VertexCount, Weight. cbn [index_to_label_ label_to_index_ adjacency_].
    set (sorted := merge_sort label_le (elements labels)).
    set (n := length sorted).
    set (index := emplace_labels sorted 0 ∅).
    assert (Hsq0 : square n (replicate n (replicate n Dbl.kInfinity)))
      by (now apply cells_replicate).
    destruct (zero_diagonal_spec n (seq 0 n) _ Hsq0) as [Hsq1 Hcell1].
    { apply Forall_forall. intros x Hx. apply elem_of_seq in Hx. lia. }
    split; [now apply add_edges_square|].
    intros i j Hi Hj.
    change (match foldl (add_edge index) (zero_diagonal n (replicate n (replicate n Dbl.kInfinity)))
                    edges !! i with
            | Some row => match row !! j with Some w => w | None => nan end
            | None => nan
            end)
      with (cell (foldl (add_edge index)
                    (zero_diagonal n (replicate n (replicate n Dbl.kInfinity))) edges) i j).
    destruct (add_edges_cell index edges
                (zero_diagonal n (replicate n (replicate n Dbl.kInfinity))) i j)
      as [H | H]; [left | now right].
    rewrite H. unfold zero_diagonal. rewrite Hcell1 by assumption.
    destruct (Nat.eqb i j) eqn:Hij.
    + apply Nat.eqb_eq in Hij as ->.
      rewrite bool_decide_eq_true_2; [reflexivity|].
      split; [reflexivity | apply elem_of_seq; lia].
    + apply Nat.eqb_neq in Hij. rewrite bool_decide_eq_false_2 by (now intros [? _]).
      unfold cell. rewrite lookup_replicate_2 by assumption.
      now rewrite lookup_replicate_2 by assumption.
Qed.

(** X9. The adjacency matrix of a graph that [FromGraphviz] returns has
    [N] rows of [N] cells.  A cell that no kept edge wrote holds 0 on the
    diagonal and [+inf] elsewhere; any other cell holds the weight of a
    kept edge from the row's label to the column's label, or of a
    bidirectional kept edge between them.  So without a self-loop line
    the diagonal is 0. *)
Theorem FromGraphviz_matrix (input : string) (g : Graph) :
  FromGraphviz input = Ok g ->
  length (adjacency_ g) = VertexCount g
  /\ Forall (fun row => length row = VertexCount g) (adjacency_ g)
  /\ (forall i j, (i < VertexCount g)%nat -> (j < VertexCount g)%nat ->
        Weight g i j = (if Nat.eqb i j then 0 else Dbl.kInfinity)
        \/ exists e, e ∈ kept_edges input
                     /\ Weight g i j = weight e
                     /\ ((index_to_label_ g !! i = Some (from e)
                          /\ index_to_label_ g !! j = Some (to e))
                         \/ (bidirectional e = true
                             /\ index_to_label_ g !! j = Some (from e)
                             /\ index_to_label_ g !! i = Some (to e))))
  /\ ((forall e, e ∈ kept_edges input -> from e <> to e) ->
      forall i, (i < VertexCount g)%nat -> Weight g i i = 0).
Proof.
  intros Hg. destruct (FromGraphviz_inv input g Hg) as (labels & Hread & ->).
  destruct (build_graph_labels (kept_edges input) labels) as (Hnd & _ & Hinv & _).
  destruct (build_graph_matrix (kept_edges input) labels) as [[Hlen Hrows] Hcells].
  assert (Hcells' : forall i j,
    (i < VertexCount (build_graph (kept_edges input) labels))%nat ->
    (j < VertexCount (build_graph (kept_edges input) labels))%nat ->
    Weight (build_graph (kept_edges input) labels) i j
    = (if Nat.eqb i j then 0 else Dbl.kInfinity)
    \/ exists e, e ∈ kept_edges input
         /\ Weight (build_graph (kept_edges input) labels) i j = weight e
         /\ ((index_to_label_ (build_graph (kept_edges input) labels) !! i = Some (from e)
              /\ index_to_label_ (build_graph (kept_edges input) labels) !! j = Some (to e))
             \/ (bidirectional e = true
                 /\ index_to_label_ (build_graph (kept_edges input) labels) !! j
                    = Some (from e)
                 /\ index_to_label_ (build_graph (kept_edges input) labels) !! i
                    = Some (to e)))).
  { intros i j Hi Hj. destruct (Hcells i j Hi Hj) as [H | (e & He & Hw & H)]; [now left|].
    right. exists e. split; [assumption|]. split; [assumption|].
    destruct Hw as [[H1 H2] | (Hb & H1 & H2)].
    - left. split; now apply Hinv.
    - right. repeat split; [assumption | now apply Hinv | now apply Hinv]. }
  split; [exact Hlen|]. split.
  - eapply Forall_impl; [exact Hrows | now intros row [Hr _]].
  - split; [exact Hcells'|].
    intros Hloop i Hi.
    destruct (Hcells' i i Hi Hi) as [H | (e & He & _ & Hends)].
    + now rewrite Nat.eqb_refl in H.
    + exfalso. apply (Hloop e He).
      destruct Hends as [[H1 H2] | (_ & H1 & H2)]; congruence.
Qed.

Lemma FromGraphviz_matrix_witness :
  length (adjacency_ (parsed parse_sample)) = VertexCount (parsed parse_sample)
  /\ Weight (parsed parse_sample) 3 3 = 0.
Proof.
  destruct (FromGraphviz_matrix parse_sample (parsed parse_sample)) as (Hlen & _ & _ & H).
  - vm_compute. reflexivity.
  - split; [exact Hlen|]. apply H.
    + intros e He. vm_compute in He.
      apply elem_of_cons in He as [-> | He]; [discriminate|].
      apply elem_of_cons in He as [-> | He]; [discriminate|].
      now apply elem_of_nil in He.
    + vm_compute. lia.
Defined.

Lemma build_graph_adjacency (edges : list RawEdge) (labels : gset string) :
  labels <> ∅ ->
  adjacency_ (build_graph edges labels)
  = foldl (add_edge (label_to_index_ (build_graph edges labels)))
      (zero_diagonal (VertexCount (build_graph edges labels))
         (replicate (VertexCount (build_graph edges labels))
            (replicate (VertexCount (build_graph edges labels)) Dbl.kInfinity)))
      edges.
Proof.
  intros Hne. unfold build_graph. now rewrite bool_decide_eq_false_2.
Qed.

Lemma add_edge_written n index adj e f t :
  square n adj -> (f < n)%nat -> (t < n)%nat ->
  index !! from e = Some f -> index !! to e = Some t ->
  cell (add_edge index adj e) f t = weight e
  /\ (bidirectional e = true -> cell (add_edge index adj e) t f = weight e).
Proof.
  intros Hsq Hf Ht Hfrom Hto. unfold add_edge. rewrite Hfrom, Hto.
  destruct (bidirectional e).
  - split; [|intros _; apply (set_cell_same n); [now apply set_cell_square | lia | lia]].
    destruct (decide ((t, f) = (f, t))) as [Heq | Hne].
    + injection Heq as -> _.
      apply (set_cell_same n); [now apply set_cell_square | lia | lia].
    + rewrite set_cell_apart by assumption. now apply (set_cell_same n).
  - split; [now apply (set_cell_same n) | discriminate].
Qed.

(** X10. Later edges overwrite earlier ones: a kept edge after which no
    kept edge joins the same two labels, in either direction, is the one
    whose weight the matrix holds from its source to its target, and,
    when it is bidirectional, from its target to its source as well. *)
Theorem FromGraphviz_last_edge (input : string) (g : Graph)
    (before after : list RawEdge) (e : RawEdge) :
  FromGraphviz input = Ok g ->
  kept_edges input = before ++ e :: after ->
  (forall e', e' ∈ after ->
     ~ ((from e' = from e /\ to e' = to e) \/ (from e' = to e /\ to e' = from e))) ->
  exists f t,
    index_to_label_ g !! f = Some (from e)
    /\ index_to_label_ g !! t = Some (to e)
    /\ Weight g f t = weight e
    /\ (bidirectional e = true -> Weight g t f = weight e).
Proof.
  intros Hg Hkept Hafter.
  destruct (FromGraphviz_label_index input g Hg) as (Hinv & Hends).
  destruct (FromGraphviz_inv input g Hg) as (labels & Hread & Hbuild).
  assert (Hin : e ∈ kept_edges input)
    by (rewrite Hkept; apply elem_of_app; right; apply list_elem_of_here).
  assert (Hfrom : from e ∈ index_to_label_ g) by (apply Hends; exists e; auto).
  assert (Hto : to e ∈ index_to_label_ g) by (apply Hends; exists e; auto).
  apply list_elem_of_lookup in Hfrom as [f Hf]. apply list_elem_of_lookup in Hto as [t Ht].
  exists f, t. split; [assumption|]. split; [assumption|].
  pose proof (lookup_lt_Some _ _ _ Hf) as Hfn. pose proof (lookup_lt_Some _ _ _ Ht) as Htn.
  fold (VertexCount g) in Hfn, Htn.
  assert (Hne : labels <> ∅).
  { intros ->. rewrite Hbuild in Hf. unfold build_graph in Hf.
    rewrite bool_decide_eq_true_2 in Hf by reflexivity. discriminate. }
  assert (Hadj : forall i j, Weight g i j
    = cell (foldl (add_edge (label_to_index_ g))
              (add_edge (label_to_index_ g)
                 (foldl (add_edge (label_to_index_ g))
                    (zero_diagonal (VertexCount g)
                       (replicate (VertexCount g) (replicate (VertexCount g) Dbl.kInfinity)))
                    before) e) after) i j).
  { intros i j. unfold Weight. fold (cell (adjacency_ g) i j).
    rewrite Hbuild at 1. rewrite (build_graph_adjacency _ labels Hne), <- Hbuild.
    now rewrite Hkept, foldl_app. }
  assert (Hsq : square (VertexCount g)
    (foldl (add_edge (label_to_index_ g))
       (zero_diagonal (VertexCount g)
          (replicate (VertexCount g) (replicate (VertexCount g) Dbl.kInfinity)))
       before)).
  { apply add_edges_square. unfold zero_diagonal.
    apply zero_diagonal_spec; [now apply cells_replicate|].
    apply Forall_forall. intros x Hx. apply elem_of_seq in Hx. lia. }
  apply Hinv in Hf, Ht.
  destruct (add_edge_written _ _ _ e f t Hsq Hfn Htn Hf Ht) as [Hw Hwb].
  assert (Hkeep : forall i j, (forall e', e' ∈ after -> ~ writes (label_to_index_ g) e' i j) ->
    Weight g i j
    = cell (add_edge (label_to_index_ g)
              (foldl (add_edge (label_to_index_ g))
                 (zero_diagonal (VertexCount g)
                    (replicate (VertexCount g) (replicate (VertexCount g) Dbl.kInfinity)))
                 before) e) i j).
  { intros i j Hno. rewrite Hadj.
    match goal with |- cell (foldl _ ?a after) i j = _ =>
      destruct (add_edges_cell (label_to_index_ g) after a i j)
        as [H | (e' & He' & Hw' & _)] end; [exact H|].
    exfalso. now apply (Hno e'). }
  assert (Hlabel : forall l i j, label_to_index_ g !! l = Some i ->
                                 label_to_index_ g !! l = Some j -> i = j) by congruence.
  assert (Hsame : forall l l' i, label_to_index_ g !! l = Some i ->
                                 label_to_index_ g !! l' = Some i -> l = l').
  { intros l l' i Hl Hl'. apply Hinv in Hl, Hl'. congruence. }
  split.
  - rewrite Hkeep; [exact Hw|].
    intros e' He' [[H1 H2] | (_ & H1 & H2)]; apply (Hafter e' He').
    + left. split; eapply Hsame; eassumption.
    + right. split; eapply Hsame; eassumption.
  - intros Hb. rewrite Hkeep; [now apply Hwb|].
    intros e' He' [[H1 H2] | (_ & H1 & H2)]; apply (Hafter e' He').
    + right. split; eapply Hsame; eassumption.
    + left. split; eapply Hsame; eassumption.
Qed.

Definition overwrite_sample : string := "A -> B [w=1]
A -- B [w=7]
B -> C [w=2]".

Lemma FromGraphviz_last_edge_witness :
  exists f t,
    index_to_label_ (parsed overwrite_sample) !! f = Some "A"
    /\ index_to_label_ (parsed overwrite_sample) !! t = Some "B"
    /\ Weight (parsed overwrite_sample) f t = 7
    /\ (true = true -> Weight (parsed overwrite_sample) t f = 7).
Proof.
  apply (FromGraphviz_last_edge overwrite_sample (parsed overwrite_sample)
           [{| from := "A"; to := "B"; weight := 1; bidirectional := false |}]
           [{| from := "B"; to := "C"; weight := 2; bidirectional := false |}]
           {| from := "A"; to := "B"; weight := 7; bidirectional := true |}).
  - vm_compute. reflexivity.
  - vm_compute. reflexivity.
  - intros e' He'. apply list_elem_of_singleton in He' as ->. cbn.
    intros [[H _] | [_ H]]; discriminate.
Defined.

(** ** [ComputePathLength], [DepositPheromone], the shares of the workers *)

Lemma sum_edges_missing (g : Graph) (pre post : list nat) (u v : nat) (len : float) :
  Dbl.isfinite (Weight g u v) = false ->
  sum_edges g (pre ++ u :: v :: post) len = Dbl.kInfinity.
Proof.
  intros Hw. revert len. induction pre as [|a pre IH]; intros len.
  - cbn. now rewrite Hw.
  - cbn [app sum_edges].
    destruct (pre ++ u :: v :: post) as [|b rest] eqn:Hrest; [now destruct pre|].
    destruct (Dbl.isfinite (Weight g a b)); [apply IH | reflexivity].
Qed.

(** X11. A path that crosses a missing edge, or any edge whose weight is
    not finite, has length [+inf], whatever the other weights are; so has
    a path of fewer than two vertices. *)
Theorem ComputePathLength_missing_edge (g : Graph) (pre post : list nat) (u v : nat) :
  Dbl.isfinite (Weight g u v) = false ->
  ComputePathLength g (pre ++ u :: v :: post) = Dbl.kInfinity
  /\ ComputePathLength g [] = Dbl.kInfinity
  /\ ComputePathLength g [u] = Dbl.kInfinity.
Proof.
  intros Hw. split; [|split; reflexivity].
  unfold ComputePathLength.
  destruct (Nat.ltb _ 2); [reflexivity | now apply sum_edges_missing].
Qed.

Lemma ComputePathLength_missing_edge_witness :
  ComputePathLength one_way_graph ([0%nat] ++ 2%nat :: 0%nat :: [1%nat]) = Dbl.kInfinity
  /\ ComputePathLength one_way_graph [] = Dbl.kInfinity
  /\ ComputePathLength one_way_graph [2%nat] = Dbl.kInfinity.
Proof.
  apply (ComputePathLength_missing_edge one_way_graph [0%nat] [1%nat] 2%nat 0%nat).
  vm_compute. reflexivity.
Defined.

(** How often a path goes from [u] straight to [v]. *)
Fixpoint edge_count (u v : nat) (p : list nat) : nat :=
  match p with
  | a :: rest =>
      match rest with
      | b :: _ =>
          ((if Nat.eqb a u && Nat.eqb b v then 1 else 0) + edge_count u v rest)%nat
      | [] => 0%nat
      end
  | [] => 0%nat
  end.

(** [x + d + ... + d], with [k] additions made one after the other. *)
Fixpoint add_times (k : nat) (d x : float) : float :=
  match k with
  | O => x
  | S k' => add_times k' d (x + d)
  end.

Lemma add_cell_square n m i j d : square n m -> square n (add_cell m i j d).
Proof. intros H. now apply cells_add_cell. Qed.

Lemma add_cell_same n m i j d :
  square n m -> (i < n)%nat -> (j < n)%nat -> cell (add_cell m i j d) i j = cell m i j + d.
Proof.
  intros [Hlen Hall] Hi Hj. unfold cell, add_cell. rewrite list_lookup_alter_eq.
  destruct (lookup_lt_is_Some_2 m i) as [row Hrow]; [lia|]. rewrite Hrow. cbn.
  destruct (Forall_lookup_1 _ _ _ _ Hall Hrow) as [Hrl _].
  rewrite list_lookup_alter_eq.
  destruct (lookup_lt_is_Some_2 row j) as [x Hx]; [lia|]. now rewrite Hx.
Qed.

Lemma add_cell_apart m i j d u v :
  (i, j) <> (u, v) -> cell (add_cell m i j d) u v = cell m u v.
Proof.
  intros Hne. unfold cell, add_cell. rewrite list_lookup_alter.
  destruct (decide (i = u)) as [-> | Hiu]; [|reflexivity].
  destruct (m !! u) as [row|]; cbn; [|reflexivity].
  rewrite list_lookup_alter_ne; [reflexivity | congruence].
Qed.

Lemma deposit_edges_cell n (p : list nat) (d : float) (deltas : matrix) (u v : nat) :
  square n deltas -> Forall (fun x => x < n)%nat p ->
  square n (deposit_edges p d deltas)
  /\ cell (deposit_edges p d deltas) u v = add_times (edge_count u v p) d (cell deltas u v).
Proof.
  revert deltas. induction p as [|a p IH]; intros deltas Hsq Hp; [now split|].
  cbn [deposit_edges edge_count]. destruct p as [|b p]; [now split|].
  inversion Hp as [|? ? Ha Hp']; subst. inversion Hp' as [|? ? Hb _]; subst.
  destruct (IH (add_cell deltas a b d) (add_cell_square _ _ _ _ _ Hsq) Hp') as [Hsq' Hcell].
  split; [exact Hsq'|]. rewrite Hcell.
  destruct (Nat.eqb a u && Nat.eqb b v) eqn:Hab.
  - apply andb_true_iff in Hab as [Hau Hbv].
    apply Nat.eqb_eq in Hau, Hbv. subst a b.
    rewrite (add_cell_same n) by assumption. reflexivity.
  - rewrite add_cell_apart; [reflexivity|].
    intros Heq. injection Heq as -> ->. now rewrite !Nat.eqb_refl in Hab.
Qed.

(** X12. [DepositPheromone] keeps the shape of the delta matrix and adds
    [q / length] to the cell of an edge once for every time the path
    crosses that edge; all other cells stay as they are.  A path with
    fewer than two vertices or a length that is not finite deposits
    nothing. *)
Theorem DepositPheromone_cells (n : nat) (p : AntPath) (q : float) (deltas : matrix)
    (u v : nat) :
  square n deltas -> Forall (fun x => x < n)%nat (path p) ->
  square n (DepositPheromone p q deltas)
  /\ cell (DepositPheromone p q deltas) u v
     = (if Nat.ltb (length (path p)) 2 || negb (Dbl.isfinite (path_length p))
        then cell deltas u v
        else add_times (edge_count u v (path p)) (q / path_length p) (cell deltas u v)).
Proof.
  intros Hsq Hp. unfold DepositPheromone.
  destruct (Nat.ltb (length (path p)) 2 || negb (Dbl.isfinite (path_length p)));
    [now split|].
  now apply deposit_edges_cell.
Qed.

Lemma DepositPheromone_cells_witness :
  square 3 (DepositPheromone triangle_tour 50 (zero_matrix triangle))
  /\ cell (DepositPheromone triangle_tour 50 (zero_matrix triangle)) 1 2
     = (if Nat.ltb (length (path triangle_tour)) 2
           || negb (Dbl.isfinite (path_length triangle_tour))
        then cell (zero_matrix triangle) 1 2
        else add_times (edge_count 1 2 (path triangle_tour)) (50 / path_length triangle_tour)
               (cell (zero_matrix triangle) 1 2)).
Proof.
  apply (DepositPheromone_cells 3 triangle_tour 50 (zero_matrix triangle) 1 2).
  - vm_compute. repeat constructor.
  - vm_compute. repeat constructor.
Defined.

Lemma edge_count_sources (u v : nat) (p : list nat) :
  (edge_count u v p <= count_occ Nat.eq_dec (removelast p) u)%nat.
Proof.
  induction p as [|a p IH]; [cbn; lia|].
  destruct p as [|b p]; [cbn; lia|].
  change (removelast (a :: b :: p)) with (a :: removelast (b :: p)).
  change (edge_count u v (a :: b :: p))
    with ((if Nat.eqb a u && Nat.eqb b v then 1 else 0) + edge_count u v (b :: p))%nat.
  destruct (Nat.eq_dec a u) as [-> | Hne].
  - rewrite count_occ_cons_eq by reflexivity.
    destruct (Nat.eqb u u && Nat.eqb b v); lia.
  - rewrite count_occ_cons_neq by assumption.
    apply Nat.eqb_neq in Hne. rewrite Hne. cbn [andb]. lia.
Qed.

Lemma tour_edges_once (c : list nat) (u v : nat) :
  NoDup c -> c <> [] -> (edge_count u v (close c) <= 1)%nat.
Proof.
  intros Hnd Hne. pose proof (edge_count_sources u v (close c)) as H.
  destruct (close_shape c Hne) as (_ & _ & Hrm & _). rewrite Hrm in H.
  assert (Hc : (count_occ Nat.eq_dec c u <= 1)%nat).
  { apply (proj1 (List.NoDup_count_occ Nat.eq_dec c)). now apply NoDup_ListNoDup. }
  lia.
Qed.

(** X13. A closed tour through pairwise distinct vertices crosses no edge
    twice, so its deposit adds [q / length] exactly once to the cell of
    each of its edges and leaves every other cell as it was. *)
Theorem DepositPheromone_tour (n : nat) (c : list nat) (len q : float) (deltas : matrix)
    (u v : nat) :
  square n deltas -> NoDup c -> c <> [] -> Forall (fun x => x < n)%nat c ->
  Dbl.isfinite len = true ->
  cell (DepositPheromone {| path := close c; path_length := len |} q deltas) u v
  = if Nat.eqb (edge_count u v (close c)) 0 then cell deltas u v
    else cell deltas u v + q / len.
Proof.
  intros Hsq Hnd Hne Hc Hfin. unfold DepositPheromone. cbn [path path_length].
  rewrite Hfin. rewrite (close_length c Hne). cbn [negb orb Nat.ltb Nat.leb].
  assert (Hshort : Nat.leb (length c) 0 = false).
  { apply Nat.leb_gt. destruct c; [congruence | cbn; lia]. }
  rewrite Hshort. cbn [orb].
  assert (Hin : Forall (fun x => x < n)%nat (close c)).
  { unfold close. apply Forall_app. split; [assumption|].
    destruct c as [|a c]; [constructor|]. inversion Hc; subst. now repeat constructor. }
  destruct (deposit_edges_cell n (close c) (q / len) deltas u v Hsq Hin) as [_ ->].
  pose proof (tour_edges_once c u v Hnd Hne) as Hone.
  destruct (edge_count u v (close c)) as [|[|k]]; [reflexivity | reflexivity | lia].
Qed.

Lemma DepositPheromone_tour_witness :
  cell (DepositPheromone {| path := close [0; 1; 2]%nat; path_length := 8 |} 50
          (zero_matrix triangle)) 2 0
  = if Nat.eqb (edge_count 2 0 (close [0; 1; 2]%nat)) 0 then cell (zero_matrix triangle) 2 0
    else cell (zero_matrix triangle) 2 0 + 50 / 8.
Proof.
  apply (DepositPheromone_tour 3 [0; 1; 2]%nat 8 50 (zero_matrix triangle) 2 0).
  - vm_compute. repeat constructor.
  - apply (bool_decide_unpack _). vm_compute. exact I.
  - discriminate.
  - vm_compute. repeat constructor.
  - reflexivity.
Defined.

(** The number of ants [RunParallel] gives worker [t] out of [T]. *)
Definition assigned (ants T t : nat) : nat :=
  (ants / T + (if Nat.ltb t (ants mod T) then 1 else 0))%nat.

Lemma worker_assigned pow E g params T pheromone iteration t :
  snd (worker pow E g params T pheromone iteration t)
  = if Nat.eqb (assigned (ants params) T t) 0 then []
    else snd (worker_loop pow E g params pheromone (assigned (ants params) T t)
                (mt19937 E (worker_seed params t iteration), zero_matrix g,
                 Dbl.kInfinity, [])).
Proof. apply worker_paths. Qed.

Lemma sum_indicator (r T : nat) :
  sum_list_with (fun t => if Nat.ltb t r then 1 else 0)%nat (seq 0 T) = Nat.min r T.
Proof.
  induction T as [|T IH]; [cbn; lia|].
  rewrite seq_S, sum_list_with_app, IH. cbn [sum_list_with Nat.add].
  destruct (Nat.ltb T r) eqn:H; [apply Nat.ltb_lt in H | apply Nat.ltb_ge in H]; lia.
Qed.

(** X14. The shares of the workers add up to the ant budget, and no two
    shares differ by more than one ant. *)
Theorem assigned_partition (ants T : nat) :
  (1 <= T)%nat ->
  sum_list_with (assigned ants T) (seq 0 T) = ants
  /\ forall t, (ants / T <= assigned ants T t <= ants / T + 1)%nat.
Proof.
  intros HT. split.
  - unfold assigned.
    assert (Hsplit : forall (f h : nat -> nat) l,
      sum_list_with (fun t => f t + h t)%nat l
      = (sum_list_with f l + sum_list_with h l)%nat).
    { intros f h l. induction l as [|x l IH]; cbn; [reflexivity | rewrite IH; lia]. }
    rewrite Hsplit, sum_indicator.
    assert (Hconst : forall k l, sum_list_with (fun _ : nat => k) l = (length l * k)%nat).
    { intros k l. induction l as [|x l IH]; cbn; [reflexivity | rewrite IH; lia]. }
    rewrite Hconst, length_seq.
    pose proof (Nat.mod_upper_bound ants T). pose proof (Nat.div_mod_eq ants T). lia.
  - intros t. unfold assigned. destruct (Nat.ltb t (ants mod T)); lia.
Qed.

Lemma assigned_partition_witness :
  sum_list_with (assigned 64 3) (seq 0 3) = 64%nat
  /\ forall t, (64 / 3 <= assigned 64 3 t <= 64 / 3 + 1)%nat.
Proof. apply (assigned_partition 64 3). lia. Defined.

(** ** Runs on the empty graph *)

Section NoVertex.

Variable pow : float -> float -> float.
Variable E : RandomEngine.
Variable g : Graph.
Hypothesis no_vertex : VertexCount g = 0%nat.

Lemma ConstructSolution_no_vertex params pheromone r :
  ConstructSolution pow E g params pheromone r = (dead_end, r).
Proof. unfold ConstructSolution. now rewrite no_vertex. Qed.

Lemma ants_loop_no_vertex params pheromone count r delta res :
  snd (ants_loop pow E g params pheromone count (r, delta, res)) = res.
Proof.
  revert r delta. induction count as [|count IH]; intros r delta; [reflexivity|].
  cbn [ants_loop]. rewrite ConstructSolution_no_vertex. cbn [is_nil path dead_end]. apply IH.
Qed.

Lemma sequential_loop_no_vertex params count :
  snd (sequential_loop pow E g params count) = no_result.
Proof.
  induction count as [|count IH]; [reflexivity|].
  cbn [sequential_loop].
  destruct (sequential_loop pow E g params count) as [[ph r] res].
  cbn [snd] in IH. subst res. cbn [sequential_iteration].
  pose proof (ants_loop_no_vertex params ph (ants params) r (zero_matrix g) no_result) as H.
  destruct (ants_loop pow E g params ph (ants params) _) as [[r' d'] res']. exact H.
Qed.

Lemma worker_loop_no_vertex params pheromone count r ld tbl tbp :
  snd (worker_loop pow E g params pheromone count (r, ld, tbl, tbp)) = tbp.
Proof.
  revert r. induction count as [|count IH]; intros r; [reflexivity|].
  cbn [worker_loop]. rewrite ConstructSolution_no_vertex. cbn [is_nil path dead_end]. apply IH.
Qed.

Lemma parallel_loop_no_vertex params T schedule count :
  snd (parallel_loop pow E g params T schedule count) = no_result.
Proof.
  induction count as [|count IH]; [reflexivity|].
  cbn [parallel_loop].
  destruct (parallel_loop pow E g params T schedule count) as [ph res].
  cbn [snd] in IH. subst res. cbn [parallel_iteration snd].
  generalize (schedule count). intros order.
  induction order as [|t order IHo]; [reflexivity|].
  cbn [foldl].
  destruct (map (worker pow E g params T ph count) (seq 0 T) !! t) as [[ld tbp]|] eqn:Ht;
    [|exact IHo].
  apply list_elem_of_lookup_2 in Ht. apply list_elem_of_fmap in Ht as (t' & Heq & _).
  assert (tbp = []) as ->.
  { change tbp with (snd (ld, tbp)). rewrite Heq, worker_paths.
    destruct (Nat.eqb _ 0); [reflexivity | apply worker_loop_no_vertex]. }
  exact IHo.
Qed.

End NoVertex.

(** X15. On a graph without vertices, such as the one [FromGraphviz]
    returns for a stream without edges, both runners complete and return
    the empty result, [best_length = +inf] and no path, for any
    parameters, any number of threads and any order of the workers. *)
Theorem runs_on_empty_graph (pow : float -> float -> float) (E : RandomEngine) (g : Graph)
    (params : AntColonyParameters) (T : nat) (schedule : nat -> list nat) :
  VertexCount g = 0%nat ->
  RunSequential pow E g params = no_result
  /\ RunParallel pow E g params T schedule = no_result.
Proof.
  intros Hn. unfold RunSequential, RunParallel. split.
  - now apply sequential_loop_no_vertex.
  - destruct (Nat.eqb T 0); [reflexivity | now apply parallel_loop_no_vertex].
Qed.

Lemma runs_on_empty_graph_witness :
  RunSequential pow_model lcg_engine (parsed no_edge_stream) default_params = no_result
  /\ RunParallel pow_model lcg_engine (parsed no_edge_stream) default_params 4
       (fun _ => seq 0 4) = no_result.
Proof.
  apply (runs_on_empty_graph pow_model lcg_engine (parsed no_edge_stream) default_params 4
           (fun _ => seq 0 4)).
  reflexivity.
Defined.

(** ** The label string of a tour *)

Module Serial.

(** What follows the first label in the label string. *)
Fixpoint rest_of (g : Graph) (x : list nat) : string :=
  match x with
  | [] => EmptyString
  | v :: x' => "->" +:+ (Label g v +:+ rest_of g x')
  end.

Definition starts_rest (t : string) : Prop :=
  t = EmptyString \/ exists t', t = "->" +:+ t'.

Lemma rest_of_starts g x : starts_rest (rest_of g x).
Proof. destruct x; [now left | right; eauto]. Qed.

Lemma serialize_step g (x : list nat) (s : string) (i : nat) :
  fst (foldl (fun '(serialized, i) v =>
                ((if Nat.eqb i 0 then serialized else serialized +:+ "->")
                   +:+ Label g v, S i))
             (s, S i) x)
  = s +:+ rest_of g x.
Proof.
  revert s i. induction x as [|v x IH]; intros s i.
  - cbn. now rewrite Key.append_nil_r.
  - cbn [foldl rest_of Nat.eqb]. rewrite IH. now rewrite !Key.append_assoc.
Qed.

Lemma serialize_cons g v x : serialize g (v :: x) = Label g v +:+ rest_of g x.
Proof. unfold serialize. cbn [foldl Nat.eqb]. now rewrite serialize_step. Qed.

Lemma split_at_arrow (a b x y : string) :
  Key.has_separator a = false -> Key.has_separator b = false ->
  starts_rest x -> starts_rest y ->
  a +:+ x = b +:+ y -> a = b /\ x = y.
Proof.
  revert b. induction a as [|ch a IH]; intros b Ha Hb Hx Hy Heq.
  - rewrite Key.append_nil_l in Heq.
    destruct b as [|ch' b]; [now split|]. exfalso.
    rewrite Key.append_cons in Heq.
    destruct Hx as [-> | [x' ->]]; [discriminate|].
    cbn in Hb. apply orb_false_iff in Hb as [_ Hb].
    change ("->" +:+ x') with (String "-" (String ">" x')) in Heq.
    injection Heq as _ Heq.
    destruct b as [|ch2 b].
    + rewrite Key.append_nil_l in Heq.
      destruct Hy as [-> | [y' ->]]; discriminate.
    + rewrite Key.append_cons in Heq. injection Heq as <- _.
      cbn in Hb. discriminate.
  - cbn in Ha. apply orb_false_iff in Ha as [_ Ha].
    rewrite Key.append_cons in Heq.
    destruct b as [|ch' b].
    + exfalso. rewrite Key.append_nil_l in Heq.
      destruct Hy as [-> | [y' ->]]; [discriminate|].
      change ("->" +:+ y') with (String "-" (String ">" y')) in Heq.
      injection Heq as _ Heq.
      destruct a as [|ch2 a].
      * rewrite Key.append_nil_l in Heq.
        destruct Hx as [-> | [x' ->]]; discriminate.
      * rewrite Key.append_cons in Heq. injection Heq as -> _.
        cbn in Ha. discriminate.
    + rewrite Key.append_cons in Heq. cbn in Hb. apply orb_false_iff in Hb as [_ Hb].
      injection Heq as -> Heq.
      destruct (IH b Ha Hb Hx Hy Heq) as [-> ->]. now split.
Qed.

Section Injective.

Variable g : Graph.
Hypothesis labels_plain : Key.plain_labels g.

Lemma rest_of_inj x y :
  Forall (fun v => v < VertexCount g)%nat x -> Forall (fun v => v < VertexCount g)%nat y ->
  rest_of g x = rest_of g y -> x = y.
Proof.
  revert y. induction x as [|v x IH]; intros [|w y] Hx Hy Heq;
    try discriminate; [reflexivity|].
  inversion Hx as [|? ? Hv Hx']; subst. inversion Hy as [|? ? Hw Hy']; subst.
  cbn [rest_of] in Heq.
  change ("->" +:+ (Label g v +:+ rest_of g x))
    with (String "-" (String ">" (Label g v +:+ rest_of g x))) in Heq.
  change ("->" +:+ (Label g w +:+ rest_of g y))
    with (String "-" (String ">" (Label g w +:+ rest_of g y))) in Heq.
  injection Heq as Heq.
  destruct (Key.Label_plain g labels_plain v Hv) as [_ Hsv].
  destruct (Key.Label_plain g labels_plain w Hw) as [_ Hsw].
  destruct (split_at_arrow _ _ _ _ Hsv Hsw (rest_of_starts g x) (rest_of_starts g y) Heq)
    as [Hl Ht].
  f_equal; [now apply (Key.Label_inj g labels_plain) | now apply IH].
Qed.

Lemma serialize_inj x y :
  Forall (fun v => v < VertexCount g)%nat x -> Forall (fun v => v < VertexCount g)%nat y ->
  serialize g x = serialize g y -> x = y.
Proof.
  intros Hx Hy Heq.
  destruct x as [|v x], y as [|w y]; [reflexivity | | |].
  - exfalso. rewrite serialize_cons in Heq. inversion Hy; subst.
    destruct (Key.Label_plain g labels_plain w) as [Hne _]; [assumption|].
    destruct (Label g w); [discriminate | discriminate].
  - exfalso. rewrite serialize_cons in Heq. inversion Hx; subst.
    destruct (Key.Label_plain g labels_plain v) as [Hne _]; [assumption|].
    destruct (Label g v); [discriminate | discriminate].
  - inversion Hx as [|? ? Hv Hx']; subst. inversion Hy as [|? ? Hw Hy']; subst.
    rewrite !serialize_cons in Heq.
    destruct (Key.Label_plain g labels_plain v Hv) as [_ Hsv].
    destruct (Key.Label_plain g labels_plain w Hw) as [_ Hsw].
    destruct (split_at_arrow _ _ _ _ Hsv Hsw (rest_of_starts g x) (rest_of_starts g y) Heq)
      as [Hl Ht].
    f_equal; [now apply (Key.Label_inj g labels_plain) | now apply rest_of_inj].
Qed.

End Injective.

End Serial.

(** X16. On a graph whose labels are pairwise distinct, non-empty and free
    of the character [>], two tours over vertices of the graph with the
    same label string are the same tour; so the test by which
    [UpdateBest] refuses a tied candidate, its label string being among
    [best_paths_labels], holds exactly when its canonical tour is among
    [best_paths]. *)
Theorem label_string_identifies_tour (g : Graph) (res : TourResult) (t : list nat) :
  Key.plain_labels g ->
  best_paths_labels res = map (serialize g) (best_paths res) ->
  Forall (Forall (fun v => v < VertexCount g)%nat) (best_paths res) ->
  Forall (fun v => v < VertexCount g)%nat t ->
  (serialize g t ∈ best_paths_labels res <-> t ∈ best_paths res).
Proof.
  intros Hplain Hser Hres Ht. rewrite Hser. split.
  - intros Hin. apply list_elem_of_fmap in Hin as (t' & Heq & Hin').
    rewrite Forall_forall in Hres.
    rewrite (Serial.serialize_inj g Hplain t t' Ht (Hres t' Hin') Heq). exact Hin'.
  - intros Hin. apply list_elem_of_fmap. now exists t.
Qed.

Lemma label_string_identifies_tour_witness :
  serialize triangle [0; 2; 1; 0]%nat
    ∈ best_paths_labels (UpdateBest triangle triangle_tour no_result)
  <-> [0; 2; 1; 0]%nat ∈ best_paths (UpdateBest triangle triangle_tour no_result).
Proof.
  apply (label_string_identifies_tour triangle (UpdateBest triangle triangle_tour no_result)
           [0; 2; 1; 0]%nat).
  - exact triangle_plain.
  - vm_compute. reflexivity.
  - vm_compute. repeat constructor.
  - repeat (apply List.Forall_cons; [vm_compute; lia|]). apply List.Forall_nil.
Defined.
